(** * UploadCSVChart: the CSV-to-chart component of data-manager.tsx

    A shallow embedding of [src/data-manager.tsx]: the component state, the
    file handler, the render effect and the three chart renderers, together
    with the fragments of JavaScript, PapaParse and d3 that they call.

    Numbers.  A JavaScript number is [NaN] or a finite exact rational ([Qc],
    fractions in lowest terms, so that [=] is numeric equality).  Rounding,
    overflow to an infinity and the sign of zero are not represented.  The
    theorems on the scales therefore state the anchor at 0 and the side on
    which the niced end lies, and no bound that the rounding of a double
    can break ([nice_rounds_below_in_doubles] shows one breaking).

    React.  The state updates made by one handler are applied together; the
    component is then rendered once and the effect runs once when one of
    its dependencies has changed (the batching of React 18). *)

From Stdlib Require Import List String Ascii Bool Arith ZArith Lia.
From Stdlib Require Import QArith Qcanon Qround.
From Stdlib Require Import Floats.
Import ListNotations.
Open Scope string_scope.
Open Scope list_scope.

(** ** JavaScript values *)

Module JS.

Inductive number : Type :=
| NaN
| Num (q : Qc).

(** What PapaParse's [dynamicTyping] puts into a cell, and [undefined] for
    a property that the row does not have. *)
Inductive value : Type :=
| VUndefined
| VNull
| VBool (b : bool)
| VNumber (n : number)
| VString (s : string).

Definition number_eq_dec (a b : number) : {a = b} + {a <> b}.
Proof. decide equality. apply Qc_eq_dec. Defined.

(** Equality of keys in a [Map] (SameValueZero). *)
Definition value_eq_dec (a b : value) : {a = b} + {a <> b}.
Proof.
  decide equality.
  - apply bool_dec.
  - apply number_eq_dec.
  - apply string_dec.
Defined.

(** A row is an object with string keys.  The association list keeps the
    order in which PapaParse created the properties; a key is looked up at
    its first entry. *)
Definition Row : Type := list (string * value).

(** [d[k]] *)
Fixpoint get (d : Row) (k : string) : value :=
  match d with
  | [] => VUndefined
  | (k', v) :: d' => if String.eqb k k' then v else get d' k
  end.

(** [Object.keys(d)], in creation order. *)
Definition Object_keys (d : Row) : list string := map fst d.

(** [v != null] *)
Definition not_null (v : value) : bool :=
  match v with
  | VUndefined | VNull => false
  | _ => true
  end.

(** [typeof v === 'number'] *)
Definition typeof_number (v : value) : bool :=
  match v with
  | VNumber _ => true
  | _ => false
  end.

(** ECMAScript's StringToNumber, which [+s] and [isNaN(s)] apply to a
    string.  The development is parametric in it. *)
Class StringCoercion : Type := StringToNumber : string -> number.

(** [+v] *)
Definition ToNumber `{StringCoercion} (v : value) : number :=
  match v with
  | VUndefined => NaN
  | VNull => Num 0
  | VBool true => Num 1
  | VBool false => Num 0
  | VNumber n => n
  | VString s => StringToNumber s
  end.

(** [isNaN(v)] *)
Definition isNaN `{StringCoercion} (v : value) : bool :=
  match ToNumber v with
  | NaN => true
  | Num _ => false
  end.

End JS.
Import JS.

(** ** The d3 functions that the component calls

    After d3-array 3 and d3-scale 4 (d3 version 7), in exact arithmetic. *)

Module D3.

Local Open Scope Qc_scope.

Definition Qc_ltb (a b : Qc) : bool :=
  match a ?= b with Lt => true | _ => false end.

Definition Qc_leb (a b : Qc) : bool :=
  match a ?= b with Gt => false | _ => true end.

Definition Qc_eqb (a b : Qc) : bool :=
  match a ?= b with Eq => true | _ => false end.

Definition ofZ (z : Z) : Qc := Q2Qc (inject_Z z).

(** [Math.floor] and [Math.ceil] *)
Definition floor (q : Qc) : Qc := ofZ (Qfloor q).
Definition ceil (q : Qc) : Qc := ofZ (Qceiling q).

(** [d3.max(values)]: the greatest value, a [NaN] being passed over;
    [None] is [undefined], the answer when nothing is left. *)
Definition max_step (max : option number) (v : number) : option number :=
  match v, max with
  | NaN, _ => max
  | Num q, None => Some v
  | Num q, Some NaN => max
  | Num q, Some (Num m) => if Qc_ltb m q then Some v else max
  end.

Definition max (values : list number) : option number :=
  fold_left max_step values None.

(** [d3.min(values)] *)
Definition min_step (min : option number) (v : number) : option number :=
  match v, min with
  | NaN, _ => min
  | Num q, None => Some v
  | Num q, Some NaN => min
  | Num q, Some (Num m) => if Qc_ltb q m then Some v else min
  end.

Definition min (values : list number) : option number :=
  fold_left min_step values None.

(** [d3.extent(values)]: [[min, max]], or [[undefined, undefined]]. *)
Definition extent (values : list number) : option number * option number :=
  (min values, max values).

(** [d3.sum(values, valueof)]: [if (value = +valueof(value)) sum += value],
    so a [NaN] and a zero are both passed over. *)
Definition sum_step {A} (valueof : A -> number) (sum : Qc) (d : A) : Qc :=
  match valueof d with
  | NaN => sum
  | Num q => if Qc_eqb q 0 then sum else sum + q
  end.

Definition sum {A} (values : list A) (valueof : A -> number) : number :=
  Num (fold_left (sum_step valueof) values 0).

(** The grouping loop of d3-array's [nest]: the groups sit in an InternMap,
    which keeps its keys in insertion order; a value whose key is already
    there is pushed onto the group of that key. *)
Fixpoint group_add {A} (key : value) (d : A) (groups : list (value * list A))
  : list (value * list A) :=
  match groups with
  | [] => [(key, [d])]
  | (k, group) :: groups' =>
      if value_eq_dec key k then (k, group ++ [d]) :: groups'
      else (k, group) :: group_add key d groups'
  end.

Definition groups {A} (values : list A) (key : A -> value)
  : list (value * list A) :=
  fold_left (fun gs d => group_add (key d) d gs) values [].

(** [d3.rollups(values, reduce, key)] *)
Definition rollups {A B} (values : list A) (reduce : list A -> B)
    (key : A -> value) : list (value * B) :=
  map (fun g => (fst g, reduce (snd g))) (groups values key).

(** *** Ticks: [tickIncrement] of d3-array *)

(** [Math.pow(10, p)] *)
Definition pow10 (p : Z) : Qc :=
  if (p <? 0)%Z then / (ofZ 10 ^ Z.to_nat (- p)) else ofZ 10 ^ Z.to_nat p.

(** [Math.floor(Math.log10(q))] for [0 < q], by repeated scaling.  The
    number of binary digits of the fraction bounds the number of rounds. *)
Fixpoint log10_up (rounds : nat) (q : Qc) (p : Z) : Z :=
  match rounds with
  | O => p
  | S rounds' =>
      if Qc_ltb q (ofZ 10) then p else log10_up rounds' (q / ofZ 10) (p + 1)
  end.

Fixpoint log10_down (rounds : nat) (q : Qc) (p : Z) : Z :=
  match rounds with
  | O => p
  | S rounds' =>
      if Qc_ltb q 1 then log10_down rounds' (q * ofZ 10) (p - 1) else p
  end.

Definition floor_log10 (q : Qc) : Z :=
  if Qc_ltb q 1
  then log10_down (Pos.to_nat (Pos.size (Qden q))) q 0
  else log10_up (Z.to_nat (Z.log2 (Qnum q))) q 0.

(** [tickIncrement(start, stop, 10)].  [e10], [e5] and [e2] are the square
    roots of 50, 10 and 2: the comparisons are made on the squares.  The
    result is negative when the increment is the inverse of an integer.
    [None] stands for the results that are not finite numbers ([-Infinity]
    when [stop = start], [NaN] when [stop < start]). *)
Definition tickIncrement (start stop : Qc) : option Qc :=
  let step := (stop - start) / ofZ 10 in
  if Qc_ltb 0 step then
    let power := floor_log10 step in
    let error := step / pow10 power in
    let factor :=
      if Qc_leb (ofZ 50) (error * error) then ofZ 10
      else if Qc_leb (ofZ 10) (error * error) then ofZ 5
      else if Qc_leb (ofZ 2) (error * error) then ofZ 2
      else 1 in
    Some (if (power <? 0)%Z then - (pow10 (- power) / factor)
          else pow10 power * factor)
  else None.

(** *** [linear().nice()] of d3-scale *)

Definition same_step (prestep : option Qc) (step : Qc) : bool :=
  match prestep with
  | None => false
  | Some p => Qc_eqb step p
  end.

(** The [while (maxIter-- > 0)] loop of [nice].  [Some (start, stop)] is the
    pair written back into the domain when the step repeats; [None] is an
    exit that leaves the domain as it was: [break], or the iterations used
    up.  After a step that is not finite the bounds are [NaN], the next step
    is [NaN] and the loop breaks: that is [None] as well. *)
Fixpoint nice_loop (tick : Qc -> Qc -> option Qc) (maxIter : nat)
    (prestep : option Qc) (start stop : Qc) : option (Qc * Qc) :=
  match maxIter with
  | O => None
  | S maxIter' =>
      match tick start stop with
      | None => None
      | Some step =>
          if same_step prestep step then Some (start, stop)
          else if Qc_ltb 0 step then
            nice_loop tick maxIter' (Some step)
              (floor (start / step) * step) (ceil (stop / step) * step)
          else if Qc_ltb step 0 then
            nice_loop tick maxIter' (Some step)
              (ceil (start * step) / step) (floor (stop * step) / step)
          else None
      end
  end.

(** [nice] on a domain [[d0, d1]]; for a descending domain the two ends
    change places ([i0 = 1], [i1 = 0]). *)
Definition nice_with (tick : Qc -> Qc -> option Qc) (d : number * number)
  : number * number :=
  match d with
  | (Num d0, Num d1) =>
      if Qc_ltb d1 d0 then
        match nice_loop tick 10 None d1 d0 with
        | Some (start, stop) => (Num stop, Num start)
        | None => d
        end
      else
        match nice_loop tick 10 None d0 d1 with
        | Some (start, stop) => (Num start, Num stop)
        | None => d
        end
  | _ => d
  end.

Definition nice : number * number -> number * number :=
  nice_with tickIncrement.

(** *** Ordinal scales *)

(** The domain of an ordinal, point or band scale keeps the first
    occurrence of each value. *)
Definition domain_add (domain : list value) (d : value) : list value :=
  if in_dec value_eq_dec d domain then domain else domain ++ [d].

Definition ordinal_domain (values : list value) : list value :=
  fold_left domain_add values [].

Fixpoint index_of (d : value) (domain : list value) : option nat :=
  match domain with
  | [] => None
  | d' :: domain' =>
      if value_eq_dec d d' then Some O
      else option_map S (index_of d domain')
  end.

(** [d3.schemeCategory10] *)
Definition schemeCategory10 : list string :=
  ["#1f77b4"; "#ff7f0e"; "#2ca02c"; "#d62728"; "#9467bd";
   "#8c564b"; "#e377c2"; "#7f7f7f"; "#bcbd22"; "#17becf"].

(** A call [scale(d)] of [d3.scaleOrdinal(range)] whose domain is [domain]:
    a value that is not yet in the domain is appended to it (the scale is
    stateful), and the result is [range[i % range.length]]. *)
Definition scaleOrdinal (range : list string) (domain : list value)
    (d : value) : string * list value :=
  match index_of d domain with
  | Some i => (nth (Nat.modulo i (List.length range)) range "", domain)
  | None =>
      (nth (Nat.modulo (List.length domain) (List.length range)) range "",
       domain ++ [d])
  end.

End D3.

(** ** The component *)

Inductive ChartType : Type := line | pie | bar.

(** The [useState] cells. *)
Record State : Type := mkState {
  data : list Row;
  columns : list string;
  xField : string;
  yField : string;
  chartType : ChartType;
  showModal : bool
}.

Definition initialState : State := mkState [] [] "" "" line false.

Definition setData (v : list Row) (s : State) : State :=
  mkState v (columns s) (xField s) (yField s) (chartType s) (showModal s).
Definition setColumns (v : list string) (s : State) : State :=
  mkState (data s) v (xField s) (yField s) (chartType s) (showModal s).
Definition setXField (v : string) (s : State) : State :=
  mkState (data s) (columns s) v (yField s) (chartType s) (showModal s).
Definition setYField (v : string) (s : State) : State :=
  mkState (data s) (columns s) (xField s) v (chartType s) (showModal s).
Definition setChartType (v : ChartType) (s : State) : State :=
  mkState (data s) (columns s) (xField s) (yField s) v (showModal s).
Definition setShowModal (v : bool) (s : State) : State :=
  mkState (data s) (columns s) (xField s) (yField s) (chartType s) v.

(** *** The chart area

    The children of the [<svg ref={chartRef}>] element, each with the data
    it was drawn from; pixel coordinates are left out. *)

Inductive XScale : Type :=
| scaleLinear (domain : option number * option number)
| scalePoint (domain : list value)
| scaleBand (domain : list value).

Inductive Mark : Type :=
| AxisBottom (xScale : XScale)
| AxisLeft (yDomain : number * number)
| LinePath (datum : list Row)
| Circle (d : Row)
| Rect (d : Row)
| PieGroup (paths : list (value * number * string)) (texts : list value).

Definition Svg : Type := list Mark.

(** What a renderer does to the element. *)
Inductive DomOp : Type :=
| RemoveAll
| Append (m : Mark).

Definition apply_op (svg : Svg) (op : DomOp) : Svg :=
  match op with
  | RemoveAll => []
  | Append m => svg ++ [m]
  end.

(** [chartRef.current] is [None] while the element is not mounted. *)
Definition run (ops : list DomOp) (ref : option Svg) : option Svg :=
  option_map (fun svg => fold_left apply_op ops svg) ref.

(** Some mark is drawn. *)
Definition draws (ops : list DomOp) : Prop := exists m, In (Append m) ops.

Section Renderers.

Context `{StringCoercion}.

(** [data.filter(d => d[xField] != null && d[yField] != null
                      && !isNaN(d[yField]))], in [drawLineChart] and in
    [drawBarChart] *)
Definition valid (s : State) (d : Row) : bool :=
  not_null (get d (xField s)) && not_null (get d (yField s))
  && negb (isNaN (get d (yField s))).

Definition filteredData (s : State) : list Row := filter (valid s) (data s).

(** [filteredData.map(d => +d[yField])] *)
Definition yValues (s : State) : list number :=
  map (fun d => ToNumber (get d (yField s))) (filteredData s).

(** [d3.scaleLinear().domain([0, d3.max(yValues) ?? 0]).nice()], the same
    expression in both renderers; the scale is kept as its domain. *)
Definition yScale (s : State) : number * number :=
  D3.nice (Num 0, match D3.max (yValues s) with
                  | Some m => m
                  | None => Num 0
                  end).

(** [filteredData.map(d => d[xField])] *)
Definition xValues (s : State) : list value :=
  map (fun d => get d (xField s)) (filteredData s).

(** [filteredData.every(d => typeof d[xField] === 'number')] *)
Definition isXNumeric (s : State) : bool :=
  forallb (fun d => typeof_number (get d (xField s))) (filteredData s).

Definition drawLineChart (s : State) (ref : option Svg) : list DomOp :=
  match ref with
  | None => []
  | Some _ =>
      let xScale :=
        if isXNumeric s
        then scaleLinear (D3.extent (map ToNumber (xValues s)))
        else scalePoint (D3.ordinal_domain (xValues s)) in
      [Append (AxisBottom xScale);
       Append (AxisLeft (yScale s));
       Append (LinePath (filteredData s))]
      ++ map (fun d => Append (Circle d)) (filteredData s)
  end.

Definition drawBarChart (s : State) (ref : option Svg) : list DomOp :=
  match ref with
  | None => []
  | Some _ =>
      let xScale := scaleBand (D3.ordinal_domain (xValues s)) in
      [Append (AxisBottom xScale);
       Append (AxisLeft (yScale s))]
      ++ map (fun d => Append (Rect d)) (filteredData s)
  end.

(** [d3.rollups(data, v => d3.sum(v, d => +d[yField]), d => d[xField])] *)
Definition grouped (s : State) : list (value * number) :=
  D3.rollups (data s)
    (fun v => D3.sum v (fun d => ToNumber (get d (yField s))))
    (fun d => get d (xField s)).

(** The fills of the slices: [color(d.data[0])] for each arc in turn, the
    scale carrying its domain from one call to the next. *)
Fixpoint fills (domain : list value) (keys : list value) : list string :=
  match keys with
  | [] => []
  | k :: keys' =>
      let (c, domain') := D3.scaleOrdinal D3.schemeCategory10 domain k in
      c :: fills domain' keys'
  end.

(** The [<g>] of the pie holds a [<path>] and a [<text>] per arc; [d3.pie]
    returns the arcs in the order of [grouped]. *)
Definition drawPieChart (s : State) (ref : option Svg) : list DomOp :=
  match ref with
  | None => []
  | Some _ =>
      let arcs := grouped s in
      let color := D3.ordinal_domain (map fst (grouped s)) in
      [Append (PieGroup (combine arcs (fills color (map fst arcs)))
                        (map fst arcs))]
  end.

(** The body of [useEffect]. *)
Definition renderEffect (s : State) (ref : option Svg) : list DomOp :=
  if match data s with [] => true | _ => false end
     || String.eqb (xField s) "" || String.eqb (yField s) ""
  then []
  else
    RemoveAll ::
    match chartType s with
    | line => drawLineChart s ref
    | bar => drawBarChart s ref
    | pie => drawPieChart s ref
    end.

End Renderers.

(** *** Events *)

(** What [Papa.parse] reports for a file: [complete(results)] with
    [results.data], or [error], which is only logged. *)
Inductive Parsed : Type :=
| complete (results_data : list Row)
| error.

Inductive Event : Type :=
| FileChange (file : option Parsed)
| ChartTypeChange (v : ChartType)
| XFieldChange (v : string)
| YFieldChange (v : string)
| ModalChange (v : bool).

(** The [complete] callback of [handleFile]. *)
Definition onComplete (results_data : list Row) (s : State) : State :=
  match results_data with
  | [] => setColumns [] (setData [] s)
  | d0 :: _ =>
      setYField "" (setXField "" (setColumns (Object_keys d0)
        (setData results_data s)))
  end.

(** [handleFile]; [file] is [e.target.files?.[0]] with what the parser
    will report for it. *)
Definition handleFile (file : option Parsed) (s : State) : State :=
  match file with
  | None => s
  | Some (complete results_data) => onComplete results_data s
  | Some error => s
  end.

Definition handle (e : Event) (s : State) : State :=
  match e with
  | FileChange file => handleFile file s
  | ChartTypeChange v => setChartType v s
  | XFieldChange v => setXField v s
  | YFieldChange v => setYField v s
  | ModalChange v => setShowModal v s
  end.

Definition ChartType_eqb (a b : ChartType) : bool :=
  match a, b with
  | line, line | pie, pie | bar, bar => true
  | _, _ => false
  end.

(** The dependency list [[data, chartType, xField, yField]].  [data] is
    compared by identity, and [setData] is always given a fresh array. *)
Definition depsChanged (e : Event) (s s' : State) : bool :=
  match e with FileChange (Some (complete _)) => true | _ => false end
  || negb (ChartType_eqb (chartType s) (chartType s'))
  || negb (String.eqb (xField s) (xField s'))
  || negb (String.eqb (yField s) (yField s')).

(** The component with its chart element. *)
Record World : Type := mkWorld {
  state : State;
  chartRef : option Svg
}.

Definition initialWorld : World := mkWorld initialState None.

(** The [<svg>] is rendered only under [columns.length > 0]: the commit
    removes it, with its children, when the columns are empty, and mounts a
    new, empty one when they stop being so. *)
Definition commit (s : State) (ref : option Svg) : option Svg :=
  match columns s with
  | [] => None
  | _ :: _ => match ref with None => Some [] | Some svg => Some svg end
  end.

Section Steps.

Context `{StringCoercion}.

(** The DOM operations of the effect that follows event [e]. *)
Definition effectOps (e : Event) (w : World) : list DomOp :=
  let s' := handle e (state w) in
  if depsChanged e (state w) s'
  then renderEffect s' (commit s' (chartRef w))
  else [].

(** One event: handler, commit, effect. *)
Definition step (w : World) (e : Event) : World :=
  let s' := handle e (state w) in
  mkWorld s' (run (effectOps e w) (commit s' (chartRef w))).

Definition steps (w : World) (es : list Event) : World :=
  fold_left step es w.

End Steps.

(** *** The same handler without batching

    Before React 18 the updates of a callback that runs outside a React
    event handler are not batched: every setter call is followed by its own
    render and, when a dependency has changed, its own run of the effect. *)

Inductive Update : Type :=
| SetData (v : list Row)
| SetColumns (v : list string)
| SetXField (v : string)
| SetYField (v : string).

(** The setter calls of the [complete] callback, in order. *)
Definition completeUpdates (results_data : list Row) : list Update :=
  match results_data with
  | [] => [SetData []; SetColumns []]
  | d0 :: _ =>
      [SetData results_data; SetColumns (Object_keys d0);
       SetXField ""; SetYField ""]
  end.

Definition update (u : Update) (s : State) : State :=
  match u with
  | SetData v => setData v s
  | SetColumns v => setColumns v s
  | SetXField v => setXField v s
  | SetYField v => setYField v s
  end.

Definition updateChangesDeps (u : Update) (s : State) : bool :=
  match u with
  | SetData _ => true
  | SetColumns _ => false
  | SetXField v => negb (String.eqb v (xField s))
  | SetYField v => negb (String.eqb v (yField s))
  end.

Section Unbatched.

Context `{StringCoercion}.

Definition renderAfter (w : World) (u : Update) : World :=
  let s' := update u (state w) in
  let ref := commit s' (chartRef w) in
  mkWorld s' (if updateChangesDeps u (state w)
              then run (renderEffect s' ref) ref
              else ref).

Definition completeUnbatched (results_data : list Row) (w : World) : World :=
  fold_left renderAfter (completeUpdates results_data) w.

End Unbatched.

(** The marks shown in the chart area. *)
Definition geometry (w : World) : Svg :=
  match chartRef w with
  | None => []
  | Some svg => svg
  end.

(** The controls exist only under [columns.length > 0], and a field select
    offers the empty choice and the columns. *)
Definition offered (s : State) (e : Event) : Prop :=
  match e with
  | FileChange _ => True
  | ChartTypeChange _ | ModalChange _ => columns s <> []
  | XFieldChange v | YFieldChange v =>
      columns s <> [] /\ (v = "" \/ In v (columns s))
  end.

Inductive reachable `{StringCoercion} : World -> Prop :=
| reachable_initial : reachable initialWorld
| reachable_step w e :
    reachable w -> offered (state w) e -> reachable (step w e).

(** The element is mounted exactly when there are columns, and there are
    no columns without data. *)
Definition consistent (w : World) : Prop :=
  (chartRef w = None <-> columns (state w) = []) /\
  (data (state w) = [] -> columns (state w) = []).

(** *** Aggregation as the specification words it

    "Grouping on xField and summing yField per group (order of first
    appearance, each group listed exactly once)". *)

(** The distinct keys, each at the place of its first appearance. *)
Fixpoint firstAppearances (keys : list value) : list value :=
  match keys with
  | [] => []
  | k :: keys' => k :: remove value_eq_dec k (firstAppearances keys')
  end.

Definition has_key {A} (key : A -> value) (k : value) (d : A) : bool :=
  if value_eq_dec (key d) k then true else false.



Section Aggregation.

Context `{StringCoercion}.

(** The rows of the group of [k], in the order of the data. *)
Definition groupOf (s : State) (k : value) : list Row :=
  filter (has_key (fun d => get d (xField s)) k) (data s).



End Aggregation.

(** Colour number [i mod 10] of the scheme. *)
Definition cycle (i : nat) : string :=
  nth (i mod 10) D3.schemeCategory10 "".

(** [m] is a number and no number of [values] exceeds it. *)
Definition bounds (m : option number) (values : list number) : Prop :=
  forall q, In (Num q) values ->
    exists b, m = Some (Num b) /\ (q <= b)%Qc.

(** *** Sample data *)

(** A StringToNumber for the examples: it reads the empty string and the
    unsigned decimal integers, and answers [NaN] to every other string, as
    StringToNumber does to "abc". *)
Fixpoint digits (s : string) (acc : Z) : option Z :=
  match s with
  | EmptyString => Some acc
  | String c s' =>
      let n := nat_of_ascii c in
      if andb (48 <=? n)%nat (n <=? 57)%nat
      then digits s' (10 * acc + Z.of_nat (n - 48))
      else None
  end.

Definition decimalDigits : StringCoercion :=
  fun s =>
    match digits s 0 with
    | Some z => Num (D3.ofZ z)
    | None => NaN
    end.

Definition num (z : Z) : value := VNumber (Num (D3.ofZ z)).

Definition rowA (c : string) (v : Z) : Row :=
  [("cat", VString c); ("v", num v)].

(** The rows [{cat:"a",v:1}, {cat:"a",v:2}, {cat:"b",v:3}]. *)
Definition catRows : list Row := [rowA "a" 1; rowA "a" 2; rowA "b" 3].

(** Rows with the values 0, 5 and 10. *)
Definition fiveTenRows : list Row := [rowA "a" 0; rowA "b" 5; rowA "c" 10].

(** A row whose [v] is the string "abc". *)
Definition abcRow : Row := [("cat", VString "a"); ("v", VString "abc")].

Definition otherRows : list Row := [[("k", VString "z"); ("n", num 2)]].


(** Eleven rows, of eleven categories. *)
Definition elevenRows : list Row :=
  map (fun c => rowA c 1)
      ["c0"; "c1"; "c2"; "c3"; "c4"; "c5"; "c6"; "c7"; "c8"; "c9"; "c10"].

(** The columns [cat] and [v] are there and both are chosen. *)
Definition selected (rows : list Row) (c : ChartType) : State :=
  mkState rows ["cat"; "v"] "cat" "v" c false.

(** Load [catRows], choose [cat] and [v]: a line chart is on display. *)
Definition chartShown : list Event :=
  [FileChange (Some (complete catRows)); XFieldChange "cat";
   YFieldChange "v"].

(** Load [abcRow] and choose [cat]; choosing [v] comes next. *)
Definition abcLoaded : list Event :=
  [FileChange (Some (complete [abcRow])); XFieldChange "cat"].

(** Equality of evaluated terms, up to the proofs that fractions carry. *)
Ltac same :=
  lazymatch goal with
  | |- @eq Qc _ _ => apply Qc_is_canon; reflexivity
  | |- _ => first [ reflexivity | progress f_equal; same ]
  end.

Ltac evaluated := vm_compute; same.

(** *** What is on display *)

(** The selection is complete: the effect passes its guard. *)
Definition ready (s : State) : Prop :=
  data s <> [] /\ xField s <> "" /\ yField s <> "".

(** [s'] has the data, the columns, the fields and the chart type of
    [s]. *)
Definition sameDeps (s s' : State) : Prop :=
  data s' = data s /\ columns s' = columns s /\
  xField s' = xField s /\ yField s' = yField s /\
  chartType s' = chartType s.

(** The columns are the keys of the first row, and a chosen field is one
    of the columns. *)
Definition wellSelected (s : State) : Prop :=
  (forall d0 rest, data s = d0 :: rest -> columns s = Object_keys d0) /\
  (columns s <> [] ->
   (xField s = "" \/ In (xField s) (columns s)) /\
   (yField s = "" \/ In (yField s) (columns s))).

Section Display.

Context `{StringCoercion}.

(** The chart that the effect draws from [s] into a mounted element. *)
Definition drawn (s : State) : Svg :=
  fold_left apply_op (renderEffect s (Some [])) [].

(** With a complete selection the chart area shows the chart of the
    state. *)
Definition displays (w : World) : Prop :=
  ready (state w) -> chartRef w = Some (drawn (state w)).

End Display.

(** The rows that the circles, and the rectangles, of a chart are bound
    to. *)
Definition circlesOf (svg : Svg) : list Row :=
  flat_map (fun m => match m with Circle d => [d] | _ => [] end) svg.

Definition rectsOf (svg : Svg) : list Row :=
  flat_map (fun m => match m with Rect d => [d] | _ => [] end) svg.

(** [d3.min] finds a number that no number of [values] is below. *)
Definition bounds_below (m : option number) (values : list number) : Prop :=
  forall q, In (Num q) values ->
    exists b, m = Some (Num b) /\ (b <= q)%Qc.

(** *** The rendered panel

    The JSX under [columns.length > 0]: the three selects, the preview
    table, and the overlay with the full table under [showModal].  The
    chart element of the panel is the [chartRef] of the world. *)

(** [{row[col]}] as a React child: [undefined], [null] and the booleans
    render nothing. *)
Definition cell (v : value) : option value :=
  match v with
  | VUndefined | VNull | VBool _ => None
  | VNumber _ | VString _ => Some v
  end.

(** [columns.map(col => <td key={col}>{row[col]}</td>)] *)
Definition tableRow (cols : list string) (row : Row) : list (option value) :=
  map (fun col => cell (get row col)) cols.

Record Table : Type := mkTable {
  thead : list string;
  tbody : list (list (option value))
}.

Definition table (cols : list string) (rows : list Row) : Table :=
  mkTable cols (map (tableRow cols) rows).

(** A select: its value and its options. *)
Record Panel : Type := mkPanel {
  chartTypeSelect : ChartType * list ChartType;
  xSelect : string * list string;
  ySelect : string * list string;
  previewTable : Table;
  modal : option Table
}.

(** The panel; [None] when it is not rendered.  The preview is over
    [data.slice(0, 10)]. *)
Definition view (s : State) : option Panel :=
  match columns s with
  | [] => None
  | _ :: _ =>
      Some (mkPanel (chartType s, [line; bar; pie])
                    (xField s, "" :: columns s)
                    (yField s, "" :: columns s)
                    (table (columns s) (firstn 10 (data s)))
                    (if showModal s
                     then Some (table (columns s) (data s))
                     else None))
  end.

(** Every event of the list is offered when its turn comes. *)
Fixpoint offeredAll `{StringCoercion} (w : World) (es : list Event) : Prop :=
  match es with
  | [] => True
  | e :: es' => offered (state w) e /\ offeredAll (step w e) es'
  end.

(** A row with a boolean for [v], and rows with numbers for [cat]. *)
Definition boolRow : Row := [("cat", VString "a"); ("v", VBool true)].

Definition numericRows : list Row :=
  [[("cat", num 2); ("v", num 1)]; [("cat", num 7); ("v", num 4)]].

(** The panel over [catRows] with the overlay open. *)
Definition catPanel : Panel :=
  mkPanel (line, [line; bar; pie])
          ("cat", [""; "cat"; "v"]) ("v", [""; "cat"; "v"])
          (table ["cat"; "v"] catRows)
          (Some (table ["cat"; "v"] catRows)).

(** * Properties *)

(** ** Arithmetic of [nice] *)

Module NiceFacts.

Import D3.
Local Open Scope Qc_scope.

Lemma Qc_ltb_lt a b : Qc_ltb a b = true <-> a < b.
Proof.
  unfold Qc_ltb. rewrite Qclt_alt.
  destruct (a ?= b); split; congruence.
Qed.

Lemma Qc_ltb_ge a b : Qc_ltb a b = false <-> b <= a.
Proof.
  split; intro E.
  - apply Qcnot_lt_le. intro L. apply Qc_ltb_lt in L. congruence.
  - destruct (Qc_ltb a b) eqn:L; [|reflexivity].
    apply Qc_ltb_lt in L. now apply Qcle_not_lt in E.
Qed.

















(** [d3.max] returns the greatest number of the list. *)
Lemma max_step_keeps acc v :
  (forall b, acc = Some (Num b) ->
     exists b', max_step acc v = Some (Num b') /\ b <= b').
Proof.
  intros b ->. destruct v as [|q]; simpl.
  - exists b. split; [reflexivity | apply Qcle_refl].
  - destruct (Qc_ltb b q) eqn:L.
    + exists q. split; [reflexivity|].
      apply Qclt_le_weak. now apply Qc_ltb_lt.
    + exists b. split; [reflexivity | apply Qcle_refl].
Qed.

Lemma max_step_new acc q :
  acc <> Some NaN ->
  exists b', max_step acc (Num q) = Some (Num b') /\ q <= b'.
Proof.
  intro Hn. destruct acc as [[|b]|]; simpl; [congruence| |].
  - destruct (Qc_ltb b q) eqn:L.
    + exists q. split; [reflexivity | apply Qcle_refl].
    + exists b. split; [reflexivity | now apply Qc_ltb_ge].
  - exists q. split; [reflexivity | apply Qcle_refl].
Qed.

Lemma max_step_not_NaN acc v : acc <> Some NaN -> max_step acc v <> Some NaN.
Proof.
  intro Hn. destruct v as [|q]; simpl; [assumption|].
  destruct acc as [[|b]|]; [congruence| |discriminate].
  destruct (Qc_ltb b q); congruence.
Qed.

Lemma fold_max_grows values :
  forall acc b, acc = Some (Num b) ->
    exists b', fold_left max_step values acc = Some (Num b') /\ b <= b'.
Proof.
  induction values as [|v values IH]; intros acc b E; simpl.
  - exists b. split; [assumption | apply Qcle_refl].
  - destruct (max_step_keeps acc v b E) as (b1 & E1 & L1).
    destruct (IH _ _ E1) as (b2 & E2 & L2).
    exists b2. split; [assumption | eapply Qcle_trans; eassumption].
Qed.

Lemma fold_max_bounds values :
  forall acc, acc <> Some NaN ->
    bounds (fold_left max_step values acc) values.
Proof.
  induction values as [|v values IH]; intros acc Hn q Hin; [destruct Hin|].
  simpl. destruct Hin as [->|Hin].
  - destruct (max_step_new acc q Hn) as (b1 & E1 & L1).
    destruct (fold_max_grows values _ _ E1) as (b2 & E2 & L2).
    exists b2. split; [assumption | eapply Qcle_trans; eassumption].
  - apply IH; [now apply max_step_not_NaN | assumption].
Qed.

Lemma max_bounds values : bounds (max values) values.
Proof. apply fold_max_bounds. discriminate. Qed.



End NiceFacts.

(** ** The decimal exponent of [tickIncrement] *)

Module LogFacts.

Import D3.
Local Open Scope Qc_scope.

Lemma ofZ_le a b : (a <= b)%Z -> ofZ a <= ofZ b.
Proof.
  intro L. unfold ofZ, Qcle. cbn [this Q2Qc].
  rewrite !Qred_correct. now rewrite <- Zle_Qle.
Qed.

Lemma ofZ_lt a b : (a < b)%Z -> ofZ a < ofZ b.
Proof.
  intro L. unfold ofZ, Qclt. cbn [this Q2Qc].
  rewrite !Qred_correct. now rewrite <- Zlt_Qlt.
Qed.

Lemma ofZ_mul a b : ofZ (a * b) = ofZ a * ofZ b.
Proof.
  apply Qc_is_canon. unfold ofZ, Qcmult. cbn [this Q2Qc].
  rewrite !Qred_correct. rewrite inject_Z_mult. reflexivity.
Qed.

Lemma ten_pos : 0 < ofZ 10.
Proof. reflexivity. Qed.

Lemma ten_neq_0 : ofZ 10 <> 0.
Proof. discriminate. Qed.

Lemma pow_pos n : 0 < ofZ 10 ^ n.
Proof.
  induction n as [|n IH]; simpl; [reflexivity|].
  rewrite <- (Qcmult_0_l (ofZ 10 ^ n)).
  apply Qcmult_lt_compat_r; [assumption | apply ten_pos].
Qed.

Lemma pow_neq_0 n : ofZ 10 ^ n <> 0.
Proof.
  intro E. pose proof (pow_pos n) as L. rewrite E in L. discriminate.
Qed.

Lemma mul_le_compat a b c d :
  0 <= a -> 0 <= c -> a <= b -> c <= d -> a * c <= b * d.
Proof.
  intros Ha Hc Hab Hcd.
  apply Qcle_trans with (b * c).
  - now apply Qcmult_le_compat_r.
  - rewrite !(Qcmult_comm b). apply Qcmult_le_compat_r; [assumption|].
    now apply Qcle_trans with a.
Qed.

(** [2 ^ n <= 10 ^ n] *)
Lemma two_pow_le n : ofZ (2 ^ Z.of_nat n) <= ofZ 10 ^ n.
Proof.
  induction n as [|n IH]; [discriminate|].
  rewrite Nat2Z.inj_succ, Z.pow_succ_r by lia.
  rewrite ofZ_mul. simpl.
  apply mul_le_compat; try assumption; try discriminate.
  change 0 with (ofZ 0). apply ofZ_le. apply Z.pow_nonneg. lia.
Qed.

(** A positive fraction lies between the inverse of its denominator and
    its numerator. *)
Lemma le_numerator (q : Qc) : 0 < q -> q <= ofZ (Qnum q).
Proof.
  unfold Qclt, Qcle, ofZ. cbn [this Q2Qc]. rewrite !Qred_correct.
  destruct q as [[n d] Hc]. unfold Qlt, Qle. simpl.
  pose proof (Pos2Z.is_pos d). nia.
Qed.

Lemma numerator_pos (q : Qc) : 0 < q -> (0 < Qnum q)%Z.
Proof.
  unfold Qclt. destruct q as [[n d] Hc]. unfold Qlt. simpl. lia.
Qed.

Lemma denominator_le (q : Qc) : 0 < q -> 1 <= q * ofZ (Zpos (Qden q)).
Proof.
  unfold Qclt, Qcle, ofZ, Qcmult. cbn [this Q2Qc].
  rewrite !Qred_correct.
  destruct q as [[n d] Hc]. unfold Qlt, Qle. simpl.
  pose proof (Pos2Z.is_pos d). nia.
Qed.

(** Scaling up: [k] divisions by ten bring [q] below ten. *)
Lemma log10_up_spec rounds :
  forall q p, 1 <= q -> q < ofZ 10 ^ S rounds ->
    exists k, log10_up rounds q p = (p + Z.of_nat k)%Z /\
              ofZ 10 ^ k <= q /\ q < ofZ 10 ^ S k.
Proof.
  induction rounds as [|n IH]; intros q p H1 H10; simpl.
  - exists O. rewrite Z.add_0_r. repeat split; assumption.
  - destruct (Qc_ltb q (ofZ 10)) eqn:L.
    + apply NiceFacts.Qc_ltb_lt in L. exists O. rewrite Z.add_0_r.
      repeat split; try assumption; simpl; now rewrite Qcmult_1_r.
    + apply NiceFacts.Qc_ltb_ge in L.
      destruct (IH (q / ofZ 10) (p + 1)%Z) as (k & E & Hlo & Hhi).
      * apply Qcmult_lt_0_le_reg_r with (z := ofZ 10); [apply ten_pos|].
        replace (q / ofZ 10 * ofZ 10) with q by (field; apply ten_neq_0).
        now rewrite Qcmult_1_l.
      * apply Qcnot_le_lt. intro Hc. apply (Qclt_not_le _ _ H10).
        replace q with (q / ofZ 10 * ofZ 10) by (field; apply ten_neq_0).
        change (ofZ 10 ^ S (S n)) with (ofZ 10 * ofZ 10 ^ S n).
        rewrite (Qcmult_comm (ofZ 10)).
        apply Qcmult_le_compat_r; [assumption | discriminate].
      * exists (S k). rewrite E. split; [lia|]. split.
        -- replace q with (q / ofZ 10 * ofZ 10) by (field; apply ten_neq_0).
           change (ofZ 10 ^ S k) with (ofZ 10 * ofZ 10 ^ k).
           rewrite (Qcmult_comm (ofZ 10)).
           apply Qcmult_le_compat_r; [assumption | discriminate].
        -- replace q with (q / ofZ 10 * ofZ 10) by (field; apply ten_neq_0).
           change (ofZ 10 ^ S (S k)) with (ofZ 10 * ofZ 10 ^ S k).
           rewrite (Qcmult_comm (ofZ 10)).
           apply Qcmult_lt_compat_r; [apply ten_pos | assumption].
Qed.

(** Scaling down: [k] multiplications by ten bring [q] up to one. *)
Lemma log10_down_spec rounds :
  forall q p, 1 <= q * ofZ 10 ^ rounds ->
    exists k, log10_down rounds q p = (p - Z.of_nat k)%Z /\
              1 <= q * ofZ 10 ^ k /\
              forall j, (j < k)%nat -> q * ofZ 10 ^ j < 1.
Proof.
  induction rounds as [|n IH]; intros q p H1; simpl.
  - exists O. rewrite Z.sub_0_r. repeat split; [assumption | lia].
  - destruct (Qc_ltb q 1) eqn:L.
    + apply NiceFacts.Qc_ltb_lt in L.
      destruct (IH (q * ofZ 10) (p - 1)%Z) as (k & E & Hlo & Hhi).
      * simpl in H1. now rewrite <- Qcmult_assoc.
      * exists (S k). rewrite E. split; [lia|]. split.
        -- simpl. now rewrite Qcmult_assoc.
        -- intros [|j] Hj; simpl.
           ++ now rewrite Qcmult_1_r.
           ++ rewrite Qcmult_assoc. apply Hhi. lia.
    + apply NiceFacts.Qc_ltb_ge in L. exists O. rewrite Z.sub_0_r.
      repeat split; [simpl; now rewrite Qcmult_1_r | lia].
Qed.

Lemma pow10_nonneg n : pow10 (Z.of_nat n) = ofZ 10 ^ n.
Proof.
  unfold pow10. destruct (Z.ltb_spec (Z.of_nat n) 0); [lia|].
  now rewrite Nat2Z.id.
Qed.

Lemma pow10_nonpos n : pow10 (- Z.of_nat n) = / (ofZ 10 ^ n).
Proof.
  destruct n as [|n]; [now apply Qc_is_canon|].
  unfold pow10. destruct (Z.ltb_spec (- Z.of_nat (S n)) 0); [|lia].
  now rewrite Z.opp_involutive, Nat2Z.id.
Qed.

Lemma inv_le q c : 0 < c -> 1 <= q * c -> / c <= q.
Proof.
  intros Hc H1. apply Qcmult_lt_0_le_reg_r with (z := c); [assumption|].
  rewrite Qcmult_inv_l; [assumption|].
  intro E. rewrite E in Hc. discriminate.
Qed.

Lemma lt_inv q c : 0 < c -> q * c < 1 -> q < / c.
Proof.
  intros Hc H1. apply Qcnot_le_lt. intro L.
  apply (Qclt_not_le _ _ H1).
  rewrite <- (Qcmult_inv_l c).
  - apply Qcmult_le_compat_r; [assumption | now apply Qclt_le_weak].
  - intro E. rewrite E in Hc. discriminate.
Qed.

(** [floor_log10 q] is the decimal exponent of [q]:
    [10 ^ p <= q < 10 ^ (p + 1)]. *)
Lemma floor_log10_spec q :
  0 < q ->
  pow10 (floor_log10 q) <= q /\ q < pow10 (floor_log10 q + 1).
Proof.
  intro Hq. unfold floor_log10.
  destruct (Qc_ltb q 1) eqn:L.
  - apply NiceFacts.Qc_ltb_lt in L.
    destruct (log10_down_spec (Pos.to_nat (Pos.size (Qden q))) q 0)
      as (k & -> & Hlo & Hhi).
    + eapply Qcle_trans; [apply (denominator_le q Hq)|].
      rewrite !(Qcmult_comm q).
      apply Qcmult_le_compat_r; [|now apply Qclt_le_weak].
      eapply Qcle_trans; [|apply two_pow_le].
      apply ofZ_le. rewrite positive_nat_Z.
      pose proof (Pos.size_gt (Qden q)) as Hs.
      apply Pos2Z.pos_lt_pos in Hs. rewrite Pos2Z.inj_pow in Hs. lia.
    + destruct k as [|k].
      { exfalso. apply (Qclt_not_le _ _ L).
        simpl in Hlo. now rewrite Qcmult_1_r in Hlo. }
      split.
      * replace (0 - Z.of_nat (S k))%Z with (- Z.of_nat (S k))%Z by lia.
        rewrite pow10_nonpos. apply inv_le; [apply pow_pos | assumption].
      * replace (0 - Z.of_nat (S k) + 1)%Z with (- Z.of_nat k)%Z by lia.
        rewrite pow10_nonpos. apply lt_inv; [apply pow_pos|].
        apply Hhi. lia.
  - apply NiceFacts.Qc_ltb_ge in L.
    destruct (log10_up_spec (Z.to_nat (Z.log2 (Qnum q))) q 0 L)
      as (k & -> & Hlo & Hhi).
    + eapply Qcle_lt_trans; [apply (le_numerator q Hq)|].
      eapply Qclt_le_trans; [|apply two_pow_le].
      apply ofZ_lt.
      pose proof (numerator_pos q Hq) as Hn.
      pose proof (Z.log2_nonneg (Qnum q)) as Hl.
      replace (Z.of_nat (S (Z.to_nat (Z.log2 (Qnum q)))))
        with (Z.succ (Z.log2 (Qnum q))) by lia.
      now apply Z.log2_spec.
    + split.
      * rewrite Z.add_0_l, pow10_nonneg. assumption.
      * replace (0 + Z.of_nat k + 1)%Z with (Z.of_nat (S k)) by lia.
        rewrite pow10_nonneg. assumption.
Qed.

End LogFacts.

(** ** Grouping *)

Module GroupFacts.

Import D3.

Lemma NoDup_remove_eq (k : value) (l : list value) :
  NoDup l -> NoDup (remove value_eq_dec k l).
Proof.
  induction 1 as [|a l Hin Hnd IH]; simpl; [constructor|].
  destruct (value_eq_dec k a); [assumption|].
  constructor; [|assumption].
  intro Hr. apply in_remove in Hr. tauto.
Qed.

Lemma In_firstAppearances k keys :
  In k (firstAppearances keys) <-> In k keys.
Proof.
  induction keys as [|a keys IH]; simpl; [tauto|].
  split.
  - intros [->|Hr]; [now left|].
    apply in_remove in Hr. right. now apply IH.
  - intros [->|Hin]; [now left|].
    destruct (value_eq_dec k a) as [->|Hne]; [now left|].
    right. apply in_in_remove; [assumption | now apply IH].
Qed.

Lemma NoDup_firstAppearances keys : NoDup (firstAppearances keys).
Proof.
  induction keys as [|a keys IH]; simpl; constructor.
  - apply remove_In.
  - now apply NoDup_remove_eq.
Qed.

Lemma firstAppearances_snoc keys k :
  firstAppearances (keys ++ [k]) =
  if in_dec value_eq_dec k keys then firstAppearances keys
  else firstAppearances keys ++ [k].
Proof.
  induction keys as [|a keys IH]; simpl; [reflexivity|].
  rewrite IH.
  destruct (in_dec value_eq_dec k keys) as [Hin|Hout].
  - destruct (value_eq_dec a k); reflexivity.
  - rewrite remove_app. simpl.
    destruct (value_eq_dec a k) as [->|Hne].
    + now rewrite app_nil_r.
    + reflexivity.
Qed.

Lemma has_key_true {A} (key : A -> value) k d :
  key d = k -> has_key key k d = true.
Proof. intro E. unfold has_key. now destruct (value_eq_dec (key d) k). Qed.

Lemma has_key_false {A} (key : A -> value) k d :
  key d <> k -> has_key key k d = false.
Proof. intro E. unfold has_key. now destruct (value_eq_dec (key d) k). Qed.

Lemma filter_snoc_other {A} (key : A -> value) (vs : list A) d k :
  key d <> k ->
  filter (has_key key k) (vs ++ [d]) = filter (has_key key k) vs.
Proof.
  intro Hne. rewrite filter_app. simpl.
  rewrite has_key_false by assumption. apply app_nil_r.
Qed.

Lemma filter_snoc_same {A} (key : A -> value) (vs : list A) d :
  filter (has_key key (key d)) (vs ++ [d]) =
  filter (has_key key (key d)) vs ++ [d].
Proof.
  rewrite filter_app. simpl. now rewrite has_key_true.
Qed.

(** Adding a value to the groups of the values before it. *)
Lemma group_add_old {A} (key : A -> value) (vs : list A) (d : A) ks :
  NoDup ks -> In (key d) ks ->
  group_add (key d) d (map (fun k => (k, filter (has_key key k) vs)) ks) =
  map (fun k => (k, filter (has_key key k) (vs ++ [d]))) ks.
Proof.
  induction 1 as [|k ks Hout Hnd IH]; intros Hin; [destruct Hin|].
  simpl. destruct (value_eq_dec (key d) k) as [E|Hne].
  - subst k. rewrite filter_snoc_same. f_equal.
    apply map_ext_in. intros k' Hk'.
    rewrite filter_snoc_other; [reflexivity | congruence].
  - rewrite filter_snoc_other by assumption. f_equal. apply IH.
    destruct Hin; [congruence | assumption].
Qed.

Lemma group_add_new {A} (key : A -> value) (vs : list A) (d : A) ks :
  ~ In (key d) ks ->
  group_add (key d) d (map (fun k => (k, filter (has_key key k) vs)) ks) =
  map (fun k => (k, filter (has_key key k) (vs ++ [d]))) ks
  ++ [(key d, [d])].
Proof.
  induction ks as [|k ks IH]; intros Hout; [reflexivity|].
  simpl in *. destruct (value_eq_dec (key d) k) as [E|Hne].
  - exfalso. apply Hout. left. congruence.
  - rewrite filter_snoc_other by assumption. f_equal. apply IH. tauto.
Qed.

Lemma filter_absent_key {A} (key : A -> value) (vs : list A) k :
  ~ In k (map key vs) -> filter (has_key key k) vs = [].
Proof.
  induction vs as [|v vs IH]; simpl; intros Hout; [reflexivity|].
  rewrite has_key_false by tauto. apply IH. tauto.
Qed.

(** The groups are those of the specification: one per distinct key, in
    the order of first appearance, each holding the values of its key. *)
Lemma groups_spec {A} (values : list A) (key : A -> value) :
  groups values key =
  map (fun k => (k, filter (has_key key k) values))
      (firstAppearances (map key values)).
Proof.
  unfold groups.
  induction values as [|d vs IH] using rev_ind; [reflexivity|].
  rewrite fold_left_app, IH, map_app.
  change (map key [d]) with [key d]. rewrite firstAppearances_snoc. simpl.
  destruct (in_dec value_eq_dec (key d) (map key vs)) as [Hin|Hout].
  - apply group_add_old.
    + apply NoDup_firstAppearances.
    + now apply In_firstAppearances.
  - rewrite group_add_new by now rewrite In_firstAppearances.
    rewrite map_app. simpl. rewrite filter_snoc_same.
    now rewrite filter_absent_key.
Qed.

Lemma rollups_spec {A B} (values : list A) (reduce : list A -> B) key :
  rollups values reduce key =
  map (fun k => (k, reduce (filter (has_key key k) values)))
      (firstAppearances (map key values)).
Proof.
  unfold rollups. rewrite groups_spec, map_map. reflexivity.
Qed.

Local Open Scope Qc_scope.



End GroupFacts.

(** ** The colour scale of the pie *)

Module ColorFacts.

Import D3.

Lemma fold_domain_add ks :
  forall acc, NoDup (acc ++ ks) -> fold_left domain_add ks acc = acc ++ ks.
Proof.
  induction ks as [|k ks IH]; intros acc Hnd; simpl.
  - now rewrite app_nil_r.
  - unfold domain_add at 2.
    destruct (in_dec value_eq_dec k acc) as [Hin|Hout].
    + apply NoDup_remove_2 in Hnd. exfalso. apply Hnd.
      apply in_or_app. now left.
    + rewrite IH; rewrite <- app_assoc; [reflexivity | assumption].
Qed.

Lemma ordinal_domain_NoDup ks : NoDup ks -> ordinal_domain ks = ks.
Proof. intro Hnd. unfold ordinal_domain. now rewrite fold_domain_add. Qed.

Lemma index_of_app pre k suf :
  ~ In k pre -> index_of k (pre ++ k :: suf) = Some (List.length pre).
Proof.
  induction pre as [|a pre IH]; simpl; intro Hout.
  - destruct (value_eq_dec k k); [reflexivity | congruence].
  - destruct (value_eq_dec k a) as [->|Hne]; [tauto|].
    rewrite IH by tauto. reflexivity.
Qed.

(** Slice number [i] is filled with colour [i mod 10] of the scheme. *)
Lemma fills_cycle suf :
  forall pre, NoDup (pre ++ suf) ->
    fills (pre ++ suf) suf =
    map cycle (seq (List.length pre) (List.length suf)).
Proof.
  induction suf as [|k suf IH]; intros pre Hnd; [reflexivity|].
  simpl. unfold scaleOrdinal.
  rewrite index_of_app.
  - f_equal.
    replace (pre ++ k :: suf) with ((pre ++ [k]) ++ suf)
      by now rewrite <- app_assoc.
    rewrite IH by now rewrite <- app_assoc.
    rewrite length_app. simpl. now rewrite Nat.add_1_r.
  - apply NoDup_remove_2 in Hnd. intro Hin. apply Hnd.
    apply in_or_app. now left.
Qed.

Lemma fills_domain keys :
  NoDup keys ->
  fills (ordinal_domain keys) keys = map cycle (seq 0 (List.length keys)).
Proof.
  intro Hnd. rewrite ordinal_domain_NoDup by assumption.
  now apply (fills_cycle keys []).
Qed.

End ColorFacts.

(** ** Filtering *)

Section Filtering.

Context `{StringCoercion}.

Lemma filteredData_valid s d :
  In d (filteredData s) <-> In d (data s) /\ valid s d = true.
Proof. apply filter_In. Qed.

(** A row of the filtered series has a yField that coerces to a number. *)
Lemma filteredData_numeric s d :
  In d (filteredData s) ->
  isNaN (get d (yField s)) = false /\
  exists q, ToNumber (get d (yField s)) = Num q.
Proof.
  intros Hin. apply filteredData_valid in Hin as [_ Hv].
  unfold valid in Hv. apply andb_true_iff in Hv as [_ Hn].
  apply negb_true_iff in Hn. split; [assumption|].
  unfold isNaN in Hn. destruct (ToNumber (get d (yField s))) as [|q];
    [discriminate | now exists q].
Qed.

(** The circles of the line chart and the rectangles of the bar chart are
    drawn from the filtered series only: a row whose yField is not numeric
    gets none. *)
Lemma line_marks_filtered s ref d :
  In (Append (Circle d)) (drawLineChart s ref) -> In d (filteredData s).
Proof.
  destruct ref as [svg|]; simpl; [|tauto].
  intros [E|[E|[E|Hin]]]; try discriminate.
  apply in_map_iff in Hin as (d' & E & Hin). now injection E as <-.
Qed.

Lemma bar_marks_filtered s ref d :
  In (Append (Rect d)) (drawBarChart s ref) -> In d (filteredData s).
Proof.
  destruct ref as [svg|]; simpl; [|tauto].
  intros [E|[E|Hin]]; try discriminate.
  apply in_map_iff in Hin as (d' & E & Hin). now injection E as <-.
Qed.

Lemma line_and_bar_exclude_non_numeric s ref d :
  isNaN (get d (yField s)) = true ->
  ~ In (Append (Circle d)) (drawLineChart s ref) /\
  ~ In (Append (Rect d)) (drawBarChart s ref).
Proof.
  intro Hnan. split; intro Hin;
    [apply line_marks_filtered in Hin | apply bar_marks_filtered in Hin];
    apply filteredData_numeric in Hin as [Hn _]; congruence.
Qed.

End Filtering.

(** ** Events and states *)

Section Events.

Context `{StringCoercion}.

Lemma step_consistent w e : consistent w -> consistent (step w e).
Proof.
  intros [_ Hdata]. split.
  - unfold step, run, commit. simpl.
    destruct (columns (handle e (state w))) as [|c cs]; simpl.
    + tauto.
    + destruct (chartRef w); simpl; split; discriminate.
  - destruct e as [[[[|d0 rest]|]|]| | | |]; simpl; auto; discriminate.
Qed.

Lemma reachable_consistent w : reachable w -> consistent w.
Proof.
  induction 1 as [|w e _ IH _].
  - split; simpl; tauto.
  - now apply step_consistent.
Qed.

Lemma commit_consistent w :
  consistent w -> commit (state w) (chartRef w) = chartRef w.
Proof.
  intros [Href _]. unfold commit.
  destruct (columns (state w)) as [|c cs].
  - symmetry. now apply Href.
  - destruct (chartRef w) as [svg|]; [reflexivity|].
    exfalso. assert (c :: cs = []) by now apply Href. discriminate.
Qed.

Lemma no_file_no_effect w : effectOps (FileChange None) w = [].
Proof.
  unfold effectOps, depsChanged. simpl.
  destruct (chartType (state w)); simpl; now rewrite !String.eqb_refl.
Qed.

(** In a reachable world a change event without a file changes nothing at
    all, the chart area included. *)
Lemma no_file_idle w : reachable w -> step w (FileChange None) = w.
Proof.
  intro Hr. apply reachable_consistent in Hr.
  unfold step. rewrite no_file_no_effect. simpl.
  rewrite commit_consistent by assumption.
  destruct w as [s [svg|]]; reflexivity.
Qed.

(** X19.  In every world that the offered events lead to, nothing is on
    display without data. *)
Lemma geometry_needs_data w :
  reachable w -> geometry w <> [] -> data (state w) <> [].
Proof.
  intros Hr Hg Hd. apply reachable_consistent in Hr as [Href Hdata].
  apply Hg. unfold geometry.
  now rewrite (proj2 Href (Hdata Hd)).
Qed.

(** Loading a file that has rows leaves the chart element, and what is
    drawn in it, as it was. *)
Lemma new_file_keeps_chart w svg d0 rest :
  chartRef w = Some svg -> Object_keys d0 <> [] ->
  chartRef (step w (FileChange (Some (complete (d0 :: rest))))) = Some svg.
Proof.
  intros Href Hkeys. unfold step, effectOps. simpl.
  unfold commit. simpl.
  destruct (Object_keys d0); [congruence|].
  rewrite Href. reflexivity.
Qed.

(** C3 (amended).  Loading a file that has at least one row empties both
    [xField] and [yField], replaces the data and the columns, and leaves
    [chartType] as it was. *)
Theorem new_file_resets_fields w d0 rest :
  let s' := state (step w (FileChange (Some (complete (d0 :: rest))))) in
  xField s' = "" /\ yField s' = "" /\
  chartType s' = chartType (state w) /\
  data s' = d0 :: rest /\ columns s' = Object_keys d0.
Proof. repeat split. Qed.

Lemma renderEffect_guard s ref :
  draws (renderEffect s ref) ->
  data s <> [] /\ xField s <> "" /\ yField s <> "".
Proof.
  unfold renderEffect. intros [m Hm].
  destruct (data s) as [|d0 rest]; [destruct Hm|].
  destruct (String.eqb_spec (xField s) ""); [destruct Hm|].
  destruct (String.eqb_spec (yField s) ""); [destruct Hm|].
  repeat split; [discriminate | assumption | assumption].
Qed.

(** C4.  Whatever the state and the event, when the effect that follows
    the event draws a mark, the data is not empty and neither [xField] nor
    [yField] is the empty string. *)
Theorem rendering_needs_data_and_fields w e :
  draws (effectOps e w) ->
  data (state (step w e)) <> [] /\
  xField (state (step w e)) <> "" /\
  yField (state (step w e)) <> "".
Proof.
  unfold effectOps. simpl.
  destruct (depsChanged e (state w) (handle e (state w))).
  - apply renderEffect_guard.
  - intros [m []].
Qed.

(** C5.  After a parse that yields no row the data and the columns are
    empty, the effect does nothing, and the chart element is gone with all
    that it held, as in the initial world: an ordinary state, reached by an
    ordinary step. *)
Theorem no_rows_gives_empty_state w :
  let w' := step w (FileChange (Some (complete []))) in
  data (state w') = [] /\ columns (state w') = [] /\
  geometry w' = [] /\
  chartRef w' = chartRef initialWorld /\
  effectOps (FileChange (Some (complete []))) w = [].
Proof. repeat split. Qed.

(** C9.  A change event without a file returns from the handler with the
    state as it was (data, columns, xField, yField, chartType and the
    rest), and no effect runs. *)
Theorem no_file_no_change w :
  handleFile None (state w) = state w /\
  state (step w (FileChange None)) = state w /\
  effectOps (FileChange None) w = [].
Proof. repeat split. apply no_file_no_effect. Qed.

End Events.

(** ** The vertical scale *)

Section Scales.

Context `{StringCoercion}.

Local Open Scope Qc_scope.

Lemma yValues_numeric s n :
  In n (yValues s) -> exists q, n = Num q.
Proof.
  unfold yValues. intro Hin.
  apply in_map_iff in Hin as (d & <- & Hd).
  now apply filteredData_numeric in Hd as [_ Hq].
Qed.



(** C8 (amended).  When the filtered series is empty the line and the bar
    renderer draw no circle and no rectangle, and the path of the line has
    no point; each still appends its two axes, the horizontal one over an
    empty domain and the vertical one over [[0, 0]]. *)
Theorem empty_series_draws_axes_only s svg :
  filteredData s = [] ->
  drawLineChart s (Some svg) =
    [Append (AxisBottom (scaleLinear (None, None)));
     Append (AxisLeft (Num 0, Num 0));
     Append (LinePath [])] /\
  drawBarChart s (Some svg) =
    [Append (AxisBottom (scaleBand []));
     Append (AxisLeft (Num 0, Num 0))].
Proof.
  intro E.
  assert (yScale s = (Num 0, Num 0)) as Ey.
  { unfold yScale, yValues. rewrite E. evaluated. }
  unfold drawLineChart, drawBarChart, isXNumeric, xValues.
  rewrite Ey, E. split; reflexivity.
Qed.

End Scales.

(** ** The pie *)

Section Pie.

Context `{StringCoercion}.

Lemma grouped_keys s :
  map fst (grouped s) =
  firstAppearances (map (fun d => get d (xField s)) (data s)).
Proof.
  unfold grouped. rewrite GroupFacts.rollups_spec, map_map. simpl.
  apply map_id.
Qed.

Lemma grouped_NoDup s : NoDup (map fst (grouped s)).
Proof. rewrite grouped_keys. apply GroupFacts.NoDup_firstAppearances. Qed.


Lemma map_fst_combine {A B} (l : list A) (l' : list B) :
  List.length l = List.length l' -> map fst (combine l l') = l.
Proof.
  revert l'. induction l as [|a l IH]; intros [|b l'] E; simpl in *;
    try reflexivity; try discriminate.
  f_equal. apply IH. now injection E.
Qed.

Lemma map_snd_combine {A B} (l : list A) (l' : list B) :
  List.length l = List.length l' -> map snd (combine l l') = l'.
Proof.
  revert l'. induction l as [|a l IH]; intros [|b l'] E; simpl in *;
    try reflexivity; try discriminate.
  f_equal. apply IH. now injection E.
Qed.

(** The fills of the slices, in the order of the groups. *)
Lemma pie_fills s :
  fills (D3.ordinal_domain (map fst (grouped s))) (map fst (grouped s)) =
  map cycle (seq 0 (List.length (grouped s))).
Proof.
  rewrite ColorFacts.fills_domain by apply grouped_NoDup.
  now rewrite length_map.
Qed.

Lemma scheme_NoDup : NoDup D3.schemeCategory10.
Proof.
  unfold D3.schemeCategory10.
  repeat (constructor; [simpl; intuition discriminate|]). constructor.
Qed.

Lemma cycle_in_scheme i : In (cycle i) D3.schemeCategory10.
Proof.
  unfold cycle. apply nth_In.
  change (List.length D3.schemeCategory10) with 10%nat.
  apply Nat.mod_upper_bound. discriminate.
Qed.

(** Two positions have the same colour exactly when they agree modulo
    ten. *)
Lemma cycle_eq i j : cycle i = cycle j <-> (i mod 10 = j mod 10)%nat.
Proof.
  unfold cycle. split; [|now intros ->].
  apply (proj1 (NoDup_nth D3.schemeCategory10 "") scheme_NoDup);
    change (List.length D3.schemeCategory10) with 10%nat;
    apply Nat.mod_upper_bound; discriminate.
Qed.

(** The one mark of the pie, with its fills written out. *)
Lemma drawPieChart_fills s svg :
  drawPieChart s (Some svg) =
  [Append (PieGroup
             (combine (grouped s)
                      (map cycle (seq 0 (List.length (grouped s)))))
             (map fst (grouped s)))].
Proof. unfold drawPieChart. now rewrite pie_fills. Qed.

Lemma nth_cycle n i :
  (i < n)%nat -> nth i (map cycle (seq 0 n)) "" = cycle i.
Proof.
  intro Hi.
  rewrite nth_indep with (d' := cycle 0)
    by (rewrite length_map, length_seq; lia).
  rewrite map_nth, seq_nth by lia. reflexivity.
Qed.

(** C10.  [schemeCategory10] has ten colours, all different.  The pie
    draws one slice per group, in the order of the groups, and slice
    number [i] is filled with colour [i mod 10] of the scheme; so two
    slices have the same fill exactly when their numbers agree modulo ten,
    and the fills are the same for any data with the same keys in the same
    order.  With more than ten groups, two slices of different categories
    have the same fill. *)
Theorem pie_colors_cycle s svg :
  List.length D3.schemeCategory10 = 10%nat /\
  NoDup D3.schemeCategory10 /\
  exists paths texts,
    drawPieChart s (Some svg) = [Append (PieGroup paths texts)] /\
    map fst paths = grouped s /\
    (forall i, (i < List.length (grouped s))%nat ->
       nth i (map snd paths) "" = nth (i mod 10) D3.schemeCategory10 "" /\
       In (nth i (map snd paths) "") D3.schemeCategory10) /\
    (forall i j,
       (i < List.length (grouped s))%nat ->
       (j < List.length (grouped s))%nat ->
       (nth i (map snd paths) "" = nth j (map snd paths) "" <->
        (i mod 10 = j mod 10)%nat)) /\
    (forall s' svg' paths' texts',
       drawPieChart s' (Some svg') = [Append (PieGroup paths' texts')] ->
       map fst (grouped s') = map fst (grouped s) ->
       map snd paths' = map snd paths) /\
    ((10 < List.length (grouped s))%nat ->
     exists k1 v1 k2 v2 c,
       k1 <> k2 /\ In c D3.schemeCategory10 /\
       In (k1, v1, c) paths /\ In (k2, v2, c) paths).
Proof.
  split; [reflexivity|]. split; [apply scheme_NoDup|].
  set (n := List.length (grouped s)).
  set (colors := map cycle (seq 0 n)).
  assert (List.length (grouped s) = List.length colors) as Hl
    by (unfold colors; now rewrite length_map, length_seq).
  exists (combine (grouped s) colors), (map fst (grouped s)).
  rewrite map_snd_combine by assumption.
  split; [apply drawPieChart_fills|]. split; [now apply map_fst_combine|].
  split; [|split; [|split]].
  - intros i Hi. unfold colors. rewrite nth_cycle by assumption.
    split; [reflexivity | apply cycle_in_scheme].
  - intros i j Hi Hj. unfold colors. rewrite !nth_cycle by assumption.
    apply cycle_eq.
  - intros s' svg' paths' texts' E Ekeys.
    rewrite drawPieChart_fills in E. injection E as <- _.
    rewrite map_snd_combine by now rewrite length_map, length_seq.
    unfold colors, n. do 2 f_equal.
    rewrite <- (length_map fst (grouped s')), Ekeys. apply length_map.
  - intro Hlen.
    set (g0 := nth 0 (grouped s) (VNull, NaN)).
    set (g10 := nth 10 (grouped s) (VNull, NaN)).
    exists (fst g0), (snd g0), (fst g10), (snd g10), (cycle 0).
    assert (forall i, (i < n)%nat ->
              In (nth i (grouped s) (VNull, NaN), cycle i)
                 (combine (grouped s) colors)) as Hnth.
    { intros i Hi.
      replace (cycle i) with (nth i colors "")
        by (unfold colors; now apply nth_cycle).
      rewrite <- combine_nth by assumption.
      apply nth_In. rewrite length_combine, <- Hl. fold n. lia. }
    split; [|split; [|split]].
    + intro E.
      assert (0 = 10)%nat as E0; [|discriminate].
      apply (proj1 (NoDup_nth (map fst (grouped s)) VNull)
                   (grouped_NoDup s)); rewrite ?length_map; fold n; try lia.
      change VNull with (fst (VNull, NaN)). rewrite !map_nth. exact E.
    + apply cycle_in_scheme.
    + rewrite <- surjective_pairing. apply (Hnth 0%nat). lia.
    + rewrite <- surjective_pairing. change (cycle 0) with (cycle 10).
      apply (Hnth 10%nat). lia.
Qed.

End Pie.

(** ** What the chart area shows *)

Section Redraw.

Context `{StringCoercion}.

Lemma renderEffect_ready s ref :
  ready s ->
  renderEffect s ref =
  RemoveAll :: match chartType s with
               | line => drawLineChart s ref
               | bar => drawBarChart s ref
               | pie => drawPieChart s ref
               end.
Proof.
  intros (Hd & Hx & Hy). unfold renderEffect.
  destruct (data s); [congruence|].
  destruct (String.eqb_spec (xField s) ""); [congruence|].
  destruct (String.eqb_spec (yField s) ""); [congruence|].
  reflexivity.
Qed.

Lemma renderEffect_not_ready s ref : ~ ready s -> renderEffect s ref = [].
Proof.
  intro Hn. unfold renderEffect.
  destruct (data s) eqn:Ed; [reflexivity|].
  destruct (String.eqb_spec (xField s) ""); [reflexivity|].
  destruct (String.eqb_spec (yField s) ""); [reflexivity|].
  exfalso. apply Hn. unfold ready. rewrite Ed.
  repeat split; [discriminate | assumption | assumption].
Qed.

Lemma draws_needs_element s : ~ draws (renderEffect s None).
Proof.
  unfold renderEffect. intros [m Hm].
  destruct (_ || _ || _); [destruct Hm|].
  destruct (chartType s); simpl in Hm; destruct Hm as [E|[]]; discriminate.
Qed.

(** X1.  With a complete selection the effect leaves in the chart element
    the chart of the state and nothing else, whatever the element held
    before. *)
Theorem effect_redraws_from_scratch s svg :
  ready s ->
  run (renderEffect s (Some svg)) (Some svg) = Some (drawn s).
Proof.
  intro Hr. unfold drawn, run.
  rewrite (renderEffect_ready s (Some svg) Hr).
  rewrite (renderEffect_ready s (Some []) Hr).
  destruct (chartType s); reflexivity.
Qed.

Lemma ChartType_eqb_eq a b : ChartType_eqb a b = true <-> a = b.
Proof. destruct a, b; simpl; split; congruence. Qed.

Lemma deps_unchanged s :
  negb (ChartType_eqb (chartType s) (chartType s))
  || negb (String.eqb (xField s) (xField s))
  || negb (String.eqb (yField s) (yField s)) = false.
Proof.
  rewrite (proj2 (ChartType_eqb_eq _ _) eq_refl), !String.eqb_refl.
  reflexivity.
Qed.

(** An event that changes no dependency of the effect changes none of the
    cells that the chart is drawn from. *)
Lemma quiet_sameDeps e s :
  depsChanged e s (handle e s) = false -> sameDeps s (handle e s).
Proof.
  unfold depsChanged, sameDeps.
  destruct e as [[[rows|]|]|v|v|v|v]; simpl; intro E;
    try discriminate; repeat split.
  - apply orb_false_iff in E as [E _]. apply orb_false_iff in E as [E _].
    apply negb_false_iff, ChartType_eqb_eq in E. now symmetry.
  - apply orb_false_iff in E as [E _]. apply orb_false_iff in E as [_ E].
    apply negb_false_iff, String.eqb_eq in E. now symmetry.
  - apply orb_false_iff in E as [_ E].
    apply negb_false_iff, String.eqb_eq in E. now symmetry.
Qed.

Lemma drawn_sameDeps s s' : sameDeps s s' -> drawn s' = drawn s.
Proof.
  destruct s, s'. unfold sameDeps. simpl.
  intros (-> & -> & -> & -> & ->). reflexivity.
Qed.

Lemma ready_sameDeps s s' : sameDeps s s' -> ready s' -> ready s.
Proof.
  unfold sameDeps, ready. intros (-> & _ & -> & -> & _). tauto.
Qed.

Lemma quiet_step_chart w e :
  consistent w ->
  depsChanged e (state w) (handle e (state w)) = false ->
  chartRef (step w e) = chartRef w.
Proof.
  intros Hc Hq. unfold step, effectOps. rewrite Hq. simpl.
  apply quiet_sameDeps in Hq as (_ & Hcols & _).
  unfold commit. rewrite Hcols. fold (commit (state w) (chartRef w)).
  rewrite commit_consistent by assumption.
  destruct (chartRef w); reflexivity.
Qed.

Lemma step_displays w e :
  consistent w -> displays w -> offered (state w) e -> displays (step w e).
Proof.
  intros Hc Hdisp Hoff Hready. simpl in Hready.
  destruct (depsChanged e (state w) (handle e (state w))) eqn:Hdeps.
  - assert (columns (handle e (state w)) <> []) as Hcols.
    { destruct Hready as (Hd & Hx & Hy).
      destruct e as [[[[|d0 rest]|]|]|v|v|v|v]; simpl in *;
        try tauto; try congruence;
        unfold depsChanged in Hdeps; simpl in Hdeps;
        rewrite deps_unchanged in Hdeps; discriminate. }
    unfold step, effectOps. rewrite Hdeps. simpl.
    unfold commit.
    destruct (columns (handle e (state w))); [congruence|].
    destruct (chartRef w); now apply effect_redraws_from_scratch.
  - rewrite quiet_step_chart by assumption. simpl.
    pose proof (quiet_sameDeps _ _ Hdeps) as Hs.
    rewrite (drawn_sameDeps _ _ Hs).
    apply Hdisp. now apply (ready_sameDeps _ _ Hs).
Qed.

Lemma reachable_displays w : reachable w -> displays w.
Proof.
  induction 1 as [|w e Hr IH Hoff].
  - intros (Hd & _). now contradiction Hd.
  - apply step_displays; try assumption. now apply reachable_consistent.
Qed.

(** X2.  In every world that the offered events lead to, a complete
    selection means that the chart area shows exactly the chart of the
    current data, fields and chart type: switching the chart type or a
    field leaves no mark of the chart before. *)
Theorem display_follows_state w :
  reachable w -> ready (state w) -> geometry w = drawn (state w).
Proof.
  intros Hr Hready. unfold geometry.
  now rewrite (reachable_displays w Hr Hready).
Qed.

(** X3.  An event after which the selection is not complete (a field set
    back to the empty choice, a new file with rows) leaves the chart area
    as it was, as long as there are columns before and after: what was
    drawn stays on display. *)
Theorem incomplete_selection_keeps_chart w e :
  consistent w ->
  columns (state w) <> [] -> columns (handle e (state w)) <> [] ->
  ~ ready (handle e (state w)) ->
  chartRef (step w e) = chartRef w.
Proof.
  intros [Href _] Hc Hc' Hn. unfold step, effectOps.
  rewrite renderEffect_not_ready by assumption.
  destruct (depsChanged _ _ _); simpl; unfold commit;
    (destruct (columns (handle e (state w))); [congruence|]);
    (destruct (chartRef w) eqn:Er; [reflexivity|]);
    exfalso; apply Hc; now apply Href.
Qed.

(** X4.  An event that changes none of data, chart type, xField and yField
    (the overlay opened or closed, a control set to the value it has, a
    change event without a file or with a parse error) runs no effect and
    leaves the chart area as it was. *)
Theorem unchanged_dependencies_no_redraw w e :
  reachable w ->
  depsChanged e (state w) (handle e (state w)) = false ->
  effectOps e w = [] /\ chartRef (step w e) = chartRef w.
Proof.
  intros Hr Hq. split.
  - unfold effectOps. now rewrite Hq.
  - apply quiet_step_chart; [now apply reachable_consistent | assumption].
Qed.

(** X5.  A parse error changes nothing: the state and the chart area are
    those of before. *)
Theorem parse_error_changes_nothing w :
  reachable w -> step w (FileChange (Some error)) = w.
Proof.
  intro Hr.
  assert (depsChanged (FileChange (Some error)) (state w)
            (handle (FileChange (Some error)) (state w)) = false) as Hq.
  { unfold depsChanged. simpl. apply deps_unchanged. }
  pose proof (quiet_step_chart w _ (reachable_consistent w Hr) Hq) as Hc.
  destruct w as [s ref]. unfold step in *. simpl in *. now rewrite Hc.
Qed.

Lemma step_wellSelected w e :
  wellSelected (state w) -> offered (state w) e ->
  wellSelected (state (step w e)).
Proof.
  intros [Hkeys Hsel] Hoff. simpl.
  destruct e as [[[[|d0 rest]|]|]|v|v|v|v]; simpl in *;
    try (split; assumption).
  - split; [discriminate | tauto].
  - split; [now intros ? ? [= <- _] | intros _; split; now left].
  - split; [assumption|]. intro Hc. destruct (Hsel Hc). tauto.
  - split; [assumption|]. intro Hc. destruct (Hsel Hc). tauto.
Qed.

Lemma reachable_wellSelected w : reachable w -> wellSelected (state w).
Proof.
  induction 1 as [|w e Hr IH Hoff].
  - split; simpl; [discriminate | tauto].
  - now apply step_wellSelected.
Qed.

(** X6.  Whenever the effect draws, in a world that the offered events
    lead to, the data has a first row and both xField and yField are keys
    of that row. *)
Theorem drawn_fields_are_columns w e :
  reachable w -> offered (state w) e -> draws (effectOps e w) ->
  exists d0 rest,
    data (state (step w e)) = d0 :: rest /\
    In (xField (state (step w e))) (Object_keys d0) /\
    In (yField (state (step w e))) (Object_keys d0).
Proof.
  intros Hr Hoff Hd.
  pose proof (reachable_wellSelected _ (reachable_step w e Hr Hoff))
    as [Hkeys Hsel].
  simpl in *. unfold effectOps in Hd.
  destruct (depsChanged _ _ _); [|now destruct Hd].
  assert (columns (handle e (state w)) <> []) as Hc.
  { intro E. unfold commit in Hd. rewrite E in Hd.
    now apply draws_needs_element in Hd. }
  apply renderEffect_guard in Hd as (Hdata & Hx & Hy).
  destruct (data (handle e (state w))) as [|d0 rest] eqn:Ed; [congruence|].
  exists d0, rest. rewrite <- (Hkeys d0 rest eq_refl).
  destruct (Hsel Hc) as [[?|?] [?|?]]; try congruence. tauto.
Qed.

End Redraw.

(** ** The rows that are plotted *)

Section Plotted.

Context `{StringCoercion}.

Local Open Scope Qc_scope.

(** X7.  Which cells count as a y value, for a row of the data whose
    xField is neither [null] nor missing: a boolean does, as 1 or 0; a
    number other than [NaN] does; a string does exactly when it coerces to
    a number; [null] and a missing cell do not, although [null] coerces
    to 0. *)
Theorem plotted_cells s d :
  In d (data s) -> not_null (get d (xField s)) = true ->
  (forall b, get d (yField s) = VBool b ->
     In d (filteredData s) /\
     ToNumber (get d (yField s)) = Num (if b then 1 else 0)) /\
  (forall q, get d (yField s) = VNumber (Num q) -> In d (filteredData s)) /\
  (forall str, get d (yField s) = VString str ->
     (In d (filteredData s) <-> StringToNumber str <> NaN)) /\
  (get d (yField s) = VNull \/ get d (yField s) = VUndefined ->
     ~ In d (filteredData s) /\
     (get d (yField s) = VNull -> isNaN (get d (yField s)) = false)).
Proof.
  intros Hin Hx.
  assert (forall v, get d (yField s) = v ->
            (In d (filteredData s) <->
             not_null v && negb (isNaN v) = true)) as Hv.
  { intros v E. rewrite filteredData_valid. unfold valid.
    rewrite Hx, E. simpl. tauto. }
  repeat split.
  - apply (Hv _ H0). now destruct b.
  - rewrite H0. now destruct b.
  - intros q E. now apply (Hv _ E).
  - intro Hd. apply (Hv _ H0) in Hd. unfold isNaN in Hd. simpl in Hd.
    intro E. now rewrite E in Hd.
  - intro Hn. apply (Hv _ H0). unfold isNaN. simpl.
    now destruct (StringToNumber str).
  - intros Hd. destruct H0 as [E|E]; apply (Hv _ E) in Hd; discriminate.
  - intro E. now rewrite E.
Qed.

Lemma fold_appends ms :
  forall svg, fold_left apply_op (map Append ms) svg = svg ++ ms.
Proof.
  induction ms as [|m ms IH]; intro svg; simpl.
  - now rewrite app_nil_r.
  - rewrite IH, <- app_assoc. reflexivity.
Qed.

Lemma fold_removeAll ops svg :
  fold_left apply_op (RemoveAll :: ops) svg = fold_left apply_op ops [].
Proof. reflexivity. Qed.

Lemma drawn_line s :
  ready s -> chartType s = line ->
  exists xScale,
    drawn s = [AxisBottom xScale; AxisLeft (yScale s);
               LinePath (filteredData s)]
              ++ map Circle (filteredData s).
Proof.
  intros Hr Hc. unfold drawn. rewrite renderEffect_ready, Hc by assumption.
  unfold drawLineChart.
  set (xScale := if isXNumeric s then _ else _). exists xScale.
  rewrite fold_removeAll, fold_left_app. cbn [fold_left apply_op app].
  rewrite <- (map_map Circle Append). apply fold_appends.
Qed.

Lemma drawn_bar s :
  ready s -> chartType s = bar ->
  drawn s = [AxisBottom (scaleBand (D3.ordinal_domain (xValues s)));
             AxisLeft (yScale s)]
            ++ map Rect (filteredData s).
Proof.
  intros Hr Hc. unfold drawn. rewrite renderEffect_ready, Hc by assumption.
  unfold drawBarChart.
  rewrite fold_removeAll, fold_left_app. cbn [fold_left apply_op app].
  rewrite <- (map_map Rect Append). apply fold_appends.
Qed.

Lemma drawn_pie s :
  ready s -> chartType s = pie ->
  exists paths texts, drawn s = [PieGroup paths texts].
Proof.
  intros Hr Hc. unfold drawn. rewrite renderEffect_ready, Hc by assumption.
  unfold drawPieChart. eexists. eexists. reflexivity.
Qed.

Lemma circlesOf_circles rows : circlesOf (map Circle rows) = rows.
Proof.
  unfold circlesOf. induction rows as [|d rows IH]; simpl; congruence.
Qed.

Lemma circlesOf_rects rows : circlesOf (map Rect rows) = [].
Proof. unfold circlesOf. induction rows as [|d rows IH]; simpl; auto. Qed.

Lemma rectsOf_rects rows : rectsOf (map Rect rows) = rows.
Proof.
  unfold rectsOf. induction rows as [|d rows IH]; simpl; congruence.
Qed.

Lemma rectsOf_circles rows : rectsOf (map Circle rows) = [].
Proof. unfold rectsOf. induction rows as [|d rows IH]; simpl; auto. Qed.

(** X8.  With a complete selection a chart has one data mark per row of
    the filtered series, in the order of the data: the line chart a
    circle and no rectangle, the bar chart a rectangle and no circle; the
    pie has neither.  So there are never more data marks than rows. *)
Theorem one_mark_per_filtered_row s :
  ready s ->
  circlesOf (drawn s) =
    match chartType s with line => filteredData s | _ => [] end /\
  rectsOf (drawn s) =
    match chartType s with bar => filteredData s | _ => [] end /\
  (List.length (circlesOf (drawn s)) + List.length (rectsOf (drawn s))
   <= List.length (data s))%nat.
Proof.
  intro Hr.
  assert (List.length (filteredData s) <= List.length (data s))%nat as Hl
    by apply filter_length_le.
  destruct (chartType s) eqn:Hc.
  - destruct (drawn_line s Hr Hc) as (xs & ->).
    unfold circlesOf, rectsOf. rewrite !flat_map_app.
    fold (circlesOf (map Circle (filteredData s))).
    fold (rectsOf (map Circle (filteredData s))).
    rewrite circlesOf_circles, rectsOf_circles. simpl.
    repeat split; lia.
  - destruct (drawn_pie s Hr Hc) as (paths & texts & ->). simpl.
    repeat split; lia.
  - rewrite (drawn_bar s Hr Hc).
    unfold circlesOf, rectsOf. rewrite !flat_map_app.
    fold (circlesOf (map Rect (filteredData s))).
    fold (rectsOf (map Rect (filteredData s))).
    rewrite circlesOf_rects, rectsOf_rects. simpl.
    repeat split; lia.
Qed.

End Plotted.

(** ** The scales *)

Module ScaleFacts.

Import D3.
Local Open Scope Qc_scope.

(** The domain of a band or point scale is the list of first
    appearances. *)
Lemma ordinal_domain_firstAppearances values :
  ordinal_domain values = firstAppearances values.
Proof.
  unfold ordinal_domain.
  induction values as [|v vs IH] using rev_ind; [reflexivity|].
  rewrite fold_left_app, IH, GroupFacts.firstAppearances_snoc. simpl.
  unfold domain_add.
  destruct (in_dec value_eq_dec v (firstAppearances vs)) as [Hin|Hout];
    destruct (in_dec value_eq_dec v vs) as [Hin'|Hout'];
    try reflexivity; exfalso.
  - apply Hout'. now apply GroupFacts.In_firstAppearances.
  - apply Hout. now apply GroupFacts.In_firstAppearances.
Qed.

Lemma min_step_keeps acc v b :
  acc = Some (Num b) ->
  exists b', min_step acc v = Some (Num b') /\ b' <= b.
Proof.
  intros ->. destruct v as [|q]; simpl.
  - exists b. split; [reflexivity | apply Qcle_refl].
  - destruct (Qc_ltb q b) eqn:L.
    + exists q. split; [reflexivity|].
      apply Qclt_le_weak. now apply NiceFacts.Qc_ltb_lt.
    + exists b. split; [reflexivity | apply Qcle_refl].
Qed.

Lemma min_step_new acc q :
  acc <> Some NaN ->
  exists b', min_step acc (Num q) = Some (Num b') /\ b' <= q.
Proof.
  intro Hn. destruct acc as [[|b]|]; simpl; [congruence| |].
  - destruct (Qc_ltb q b) eqn:L.
    + exists q. split; [reflexivity | apply Qcle_refl].
    + exists b. split; [reflexivity | now apply NiceFacts.Qc_ltb_ge].
  - exists q. split; [reflexivity | apply Qcle_refl].
Qed.

Lemma min_step_not_NaN acc v : acc <> Some NaN -> min_step acc v <> Some NaN.
Proof.
  intro Hn. destruct v as [|q]; simpl; [assumption|].
  destruct acc as [[|b]|]; [congruence| |discriminate].
  destruct (Qc_ltb q b); congruence.
Qed.

Lemma fold_min_shrinks values :
  forall acc b, acc = Some (Num b) ->
    exists b', fold_left min_step values acc = Some (Num b') /\ b' <= b.
Proof.
  induction values as [|v values IH]; intros acc b E; simpl.
  - exists b. split; [assumption | apply Qcle_refl].
  - destruct (min_step_keeps acc v b E) as (b1 & E1 & L1).
    destruct (IH _ _ E1) as (b2 & E2 & L2).
    exists b2. split; [assumption | eapply Qcle_trans; eassumption].
Qed.

Lemma fold_min_bounds values :
  forall acc, acc <> Some NaN ->
    bounds_below (fold_left min_step values acc) values.
Proof.
  induction values as [|v values IH]; intros acc Hn q Hin; [destruct Hin|].
  simpl. destruct Hin as [->|Hin].
  - destruct (min_step_new acc q Hn) as (b1 & E1 & L1).
    destruct (fold_min_shrinks values _ _ E1) as (b2 & E2 & L2).
    exists b2. split; [assumption | eapply Qcle_trans; eassumption].
  - apply IH; [now apply min_step_not_NaN | assumption].
Qed.

Lemma min_bounds values : bounds_below (min values) values.
Proof. apply fold_min_bounds. discriminate. Qed.





End ScaleFacts.

Section XYScales.

Context `{StringCoercion}.

Local Open Scope Qc_scope.

(** X9.  The horizontal scale.  The bar chart always has a band scale and
    the line chart has a point scale as soon as one x value of the series
    is not a number; the domain of either is the x values of the filtered
    series, each once, in the order of first appearance.  The line chart
    has a linear scale exactly when every x value of the series is a
    number. *)
Theorem xScale_kinds s svg :
  In (Append (AxisBottom (scaleBand (firstAppearances (xValues s)))))
     (drawBarChart s (Some svg)) /\
  (isXNumeric s = false ->
   In (Append (AxisBottom (scalePoint (firstAppearances (xValues s)))))
      (drawLineChart s (Some svg))) /\
  (isXNumeric s = true ->
   In (Append (AxisBottom
                 (scaleLinear (D3.extent (map ToNumber (xValues s))))))
      (drawLineChart s (Some svg))) /\
  (isXNumeric s = true <->
   forall d, In d (filteredData s) -> exists n, get d (xField s) = VNumber n) /\
  NoDup (firstAppearances (xValues s)) /\
  (forall v, In v (firstAppearances (xValues s)) <->
             exists d, In d (filteredData s) /\ get d (xField s) = v).
Proof.
  rewrite <- ScaleFacts.ordinal_domain_firstAppearances.
  split; [now left|]. split; [|split; [|split; [|split]]].
  - intro E. unfold drawLineChart. rewrite E. now left.
  - intro E. unfold drawLineChart. rewrite E. now left.
  - unfold isXNumeric. rewrite forallb_forall.
    split; intros Hall d Hd; specialize (Hall d Hd).
    + destruct (get d (xField s)); try discriminate. eauto.
    + destruct Hall as [n ->]. reflexivity.
  - rewrite ScaleFacts.ordinal_domain_firstAppearances.
    apply GroupFacts.NoDup_firstAppearances.
  - intro v. rewrite ScaleFacts.ordinal_domain_firstAppearances.
    rewrite GroupFacts.In_firstAppearances. unfold xValues.
    rewrite in_map_iff. split; intros (d & A & B); exists d; tauto.
Qed.

(** X10.  When the line chart has a linear horizontal scale and some x
    value of the series is a number other than [NaN], the domain of the
    scale is a pair of numbers of which the first is at most, and the
    second at least, every such x value. *)
Theorem linear_xScale_covers s svg d0 q0 :
  isXNumeric s = true ->
  In d0 (filteredData s) -> get d0 (xField s) = VNumber (Num q0) ->
  exists lo hi,
    In (Append (AxisBottom (scaleLinear (Some (Num lo), Some (Num hi)))))
       (drawLineChart s (Some svg)) /\
    forall d q, In d (filteredData s) ->
      get d (xField s) = VNumber (Num q) -> lo <= q /\ q <= hi.
Proof.
  intros Hnum Hd0 Hq0.
  assert (forall d q, In d (filteredData s) ->
            get d (xField s) = VNumber (Num q) ->
            In (Num q) (map ToNumber (xValues s))) as Hin.
  { intros d q Hd Hq. unfold xValues. rewrite map_map.
    apply in_map_iff. exists d. now rewrite Hq. }
  destruct (ScaleFacts.min_bounds _ q0 (Hin _ _ Hd0 Hq0)) as (lo & Elo & _).
  destruct (NiceFacts.max_bounds _ q0 (Hin _ _ Hd0 Hq0)) as (hi & Ehi & _).
  exists lo, hi. split.
  - unfold drawLineChart, D3.extent. rewrite Hnum, Elo, Ehi. now left.
  - intros d q Hd Hq. split.
    + destruct (ScaleFacts.min_bounds _ q (Hin _ _ Hd Hq)) as (b & E & L).
      congruence.
    + destruct (NiceFacts.max_bounds _ q (Hin _ _ Hd Hq)) as (b & E & L).
      congruence.
Qed.


End XYScales.

(** ** The groups of the pie *)

Module PartitionFacts.

(** Raising one term of a sum over distinct keys raises the sum as
    much. *)
Lemma list_sum_update (h h' : value -> nat) k c F :
  NoDup F -> In k F ->
  (forall k', In k' F -> k' <> k -> h' k' = h k') ->
  h' k = (h k + c)%nat ->
  list_sum (map h' F) = (list_sum (map h F) + c)%nat.
Proof.
  induction 1 as [|a F Hout Hnd IH]; intros Hin Hsame Hk; [destruct Hin|].
  simpl. destruct (value_eq_dec a k) as [->|Hne].
  - rewrite Hk.
    replace (map h' F) with (map h F); [lia|].
    apply map_ext_in. intros k' Hk'. symmetry.
    apply Hsame; [now right | congruence].
  - rewrite IH.
    + rewrite (Hsame a); [lia | now left | assumption].
    + destruct Hin; [congruence | assumption].
    + intros k' Hk' Hne'. apply Hsame; [now right | assumption].
    + assumption.
Qed.

(** The sizes of the groups add up to the length of the list. *)
Lemma groups_sizes {A} (key : A -> value) (l : list A) :
  list_sum (map (fun k => List.length (filter (has_key key k) l))
                (firstAppearances (map key l)))
  = List.length l.
Proof.
  induction l as [|d l IH] using rev_ind; [reflexivity|].
  rewrite map_app, length_app. simpl.
  rewrite GroupFacts.firstAppearances_snoc.
  destruct (in_dec value_eq_dec (key d) (map key l)) as [Hin|Hout].
  - rewrite <- IH.
    apply list_sum_update with (k := key d).
    + apply GroupFacts.NoDup_firstAppearances.
    + now apply GroupFacts.In_firstAppearances.
    + intros k' _ Hne. rewrite GroupFacts.filter_snoc_other; congruence.
    + now rewrite GroupFacts.filter_snoc_same, length_app.
  - rewrite map_app, list_sum_app. simpl.
    rewrite GroupFacts.filter_snoc_same.
    rewrite GroupFacts.filter_absent_key by assumption. simpl.
    rewrite <- IH. do 2 f_equal.
    apply map_ext_in. intros k' Hk'.
    rewrite GroupFacts.filter_snoc_other; [reflexivity|].
    intro E. apply Hout. rewrite E.
    now apply GroupFacts.In_firstAppearances.
Qed.

End PartitionFacts.

Section PieGroups.

Context `{StringCoercion}.

(** X12.  The groups that [d3.rollups] sums for the slices partition the
    rows of the data: there is one group per slice, in the order of the
    slices; the group of a key holds exactly the rows with that xField
    value, in the order of the data, and is never empty; and the sizes of
    the groups add up to the number of rows, so that every row counts for
    one slice and for one only. *)
Theorem pie_groups_partition_rows s :
  let gs := D3.groups (data s) (fun d => get d (xField s)) in
  map fst gs = map fst (grouped s) /\
  (forall k rows, In (k, rows) gs ->
     rows = groupOf s k /\ rows <> [] /\
     forall d, In d rows <-> In d (data s) /\ get d (xField s) = k) /\
  list_sum (map (fun g => List.length (snd g)) gs) = List.length (data s).
Proof.
  cbv zeta. unfold grouped, D3.rollups.
  rewrite GroupFacts.groups_spec, !map_map. cbn [fst snd].
  split; [reflexivity|]. split.
  - intros k rows Hin. apply in_map_iff in Hin as (k' & [= -> <-] & Hk).
    assert (forall d, In d (groupOf s k) <->
                      In d (data s) /\ get d (xField s) = k) as Hrows.
    { intro d. unfold groupOf. rewrite filter_In. unfold has_key.
      destruct (value_eq_dec (get d (xField s)) k); split;
        intros [? ?]; split; congruence. }
    split; [reflexivity|]. split; [|exact Hrows].
    apply GroupFacts.In_firstAppearances, in_map_iff in Hk
      as (d & Ed & Hd).
    intro E. fold (groupOf s k) in E.
    assert (In d (groupOf s k)) as Hd' by now apply Hrows.
    rewrite E in Hd'. destruct Hd'.
  - apply (PartitionFacts.groups_sizes (fun d => get d (xField s))).
Qed.

End PieGroups.

(** ** The tables *)

Lemma get_absent (d : Row) k : ~ In k (Object_keys d) -> get d k = VUndefined.
Proof.
  induction d as [|[k' v] d IH]; simpl; intro Hout; [reflexivity|].
  destruct (String.eqb_spec k k') as [->|Hne]; [tauto|]. apply IH. tauto.
Qed.

(** X13.  When the panel is rendered, the preview table has
    [min(10, data.length)] rows, which are the first rows of the full
    table; the overlay is there exactly under [showModal], and its table
    has one row per row of the data.  Both tables have the columns as
    their head. *)
Theorem tables_rows s p :
  view s = Some p ->
  List.length (tbody (previewTable p)) = Nat.min 10 (List.length (data s)) /\
  tbody (previewTable p) = firstn 10 (tbody (table (columns s) (data s))) /\
  thead (previewTable p) = columns s /\
  (showModal s = true ->
   modal p = Some (table (columns s) (data s)) /\
   List.length (tbody (table (columns s) (data s)))
   = List.length (data s)) /\
  (showModal s = false -> modal p = None).
Proof.
  unfold view. remember (firstn 10 (data s)) as first10 eqn:E10.
  destruct (columns s) as [|c cs] eqn:Ec; [discriminate|].
  intros [= <-]. cbn [previewTable modal table tbody thead]. subst first10.
  split; [|split; [|split; [|split]]].
  - now rewrite length_map, length_firstn.
  - now rewrite firstn_map.
  - reflexivity.
  - intros ->. split; [reflexivity | apply length_map].
  - intros ->. reflexivity.
Qed.

(** X14.  A table row has one cell per column, in the order of the
    columns, whatever keys the row itself has; the cell of a column that
    the row lacks is empty, and so is the cell of a [null] and of a
    boolean. *)
Theorem table_cells cols (row : Row) :
  List.length (tableRow cols row) = List.length cols /\
  (forall i col, nth_error cols i = Some col ->
     nth_error (tableRow cols row) i = Some (cell (get row col))) /\
  (forall col, ~ In col (Object_keys row) -> cell (get row col) = None) /\
  (forall v, cell v = None <->
             v = VUndefined \/ v = VNull \/ exists b, v = VBool b).
Proof.
  unfold tableRow. repeat split.
  - apply length_map.
  - intros i col E. now rewrite nth_error_map, E.
  - intros col Hout. now rewrite get_absent.
  - destruct v; simpl; intro E; try discriminate; eauto.
  - intros [->|[->|[b ->]]]; reflexivity.
Qed.

(** ** Events twice over *)

Section Twice.

Context `{StringCoercion}.

Lemma handle_twice e s : handle e (handle e s) = handle e s.
Proof.
  destruct e as [[[[|d0 rest]|]|]|v|v|v|v]; destruct s; reflexivity.
Qed.

Lemma commit_run s ops ref :
  commit s (run ops (commit s ref)) = run ops (commit s ref).
Proof.
  unfold commit, run.
  destruct (columns s); [reflexivity|]. destruct ref; reflexivity.
Qed.

Lemma run_nil ref : run [] ref = ref.
Proof. destruct ref; reflexivity. Qed.

Lemma ChartType_eqb_refl c : ChartType_eqb c c = true.
Proof. now destruct c. Qed.

(** The effect has nothing to do after the second of two equal events. *)
Lemma second_effect_idle w e : effectOps e (step w e) = [].
Proof.
  unfold effectOps. cbn [state step]. rewrite handle_twice.
  destruct e as [[[[|d0 rest]|]|]|v|v|v|v]; unfold depsChanged; simpl;
    rewrite ?ChartType_eqb_refl, ?String.eqb_refl; reflexivity.
Qed.

(** X15.  The same event a second time changes nothing more, from any
    world: neither the state nor the chart area (choosing the value that a
    control already has, loading the same rows again). *)
Theorem event_twice w e : step (step w e) e = step w e.
Proof.
  unfold step at 1. rewrite second_effect_idle, run_nil.
  cbn [state chartRef step]. rewrite handle_twice, commit_run.
  reflexivity.
Qed.

(** X16.  After a file without rows the chart area is empty, and it is
    still empty after the next file, whatever its rows: only an empty
    file in between clears the chart of an earlier one. *)
Theorem empty_file_clears_for_next w rows :
  geometry (step w (FileChange (Some (complete [])))) = [] /\
  geometry (steps w [FileChange (Some (complete []));
                     FileChange (Some (complete rows))]) = [].
Proof.
  split; [reflexivity|].
  destruct rows as [|d0 rest]; [reflexivity|].
  unfold steps, geometry, step, effectOps, commit. simpl.
  destruct (Object_keys d0); reflexivity.
Qed.

End Twice.

(** ** More on the pie and on the selects *)

Section PieSize.

Context `{StringCoercion}.

Lemma firstAppearances_length keys :
  (List.length (firstAppearances keys) <= List.length keys)%nat.
Proof.
  induction keys as [|k keys IH]; simpl; [lia|].
  pose proof (remove_length_le value_eq_dec (firstAppearances keys) k).
  lia.
Qed.

(** X17.  The pie has at most as many slices as the data has rows, and at
    least one as soon as the data has a row, whether or not any row is
    valid for the line and bar charts. *)
Theorem pie_slice_count s :
  (List.length (grouped s) <= List.length (data s))%nat /\
  (data s <> [] -> grouped s <> []).
Proof.
  assert (List.length (grouped s)
          = List.length (firstAppearances
                           (map (fun d => get d (xField s)) (data s))))
    as El by (rewrite <- grouped_keys; now rewrite length_map).
  split.
  - rewrite El.
    etransitivity; [apply firstAppearances_length|]. now rewrite length_map.
  - intros Hne E. rewrite E in El. simpl in El.
    destruct (data s); [congruence|]. simpl in El. discriminate.
Qed.

(** X18.  In every world that the offered events lead to, when the panel
    is rendered each select shows a value that is among its options: the
    chart type, and for each field the empty choice or a column. *)
Theorem selects_show_an_option w p :
  reachable w -> view (state w) = Some p ->
  In (fst (chartTypeSelect p)) (snd (chartTypeSelect p)) /\
  In (fst (xSelect p)) (snd (xSelect p)) /\
  In (fst (ySelect p)) (snd (ySelect p)).
Proof.
  intros Hr Hv. apply reachable_wellSelected in Hr as [_ Hsel].
  unfold view in Hv.
  destruct (columns (state w)) as [|c cs] eqn:Ec; [discriminate|].
  injection Hv as <-. cbn [chartTypeSelect xSelect ySelect fst snd].
  destruct Hsel as [Hx Hy]; [discriminate|].
  split; [|split].
  - destruct (chartType (state w)); simpl; tauto.
  - destruct Hx as [->|Hx]; [now left | now right].
  - destruct Hy as [->|Hy]; [now left | now right].
Qed.

Lemma reachable_steps es :
  forall w, reachable w -> offeredAll w es -> reachable (steps w es).
Proof.
  induction es as [|e es IH]; intros w Hr Ho; [assumption|].
  destruct Ho as [Ho Hos]. apply (IH (step w e)); [|assumption].
  now apply reachable_step.
Qed.

End PieSize.

(** ** The component on the sample data *)

#[local] Existing Instance decimalDigits.

(** C1 (the code departs from the claim).  With the rows
    [[{cat:"a", v:"abc"}]], [cat] on x and [v] on y, the value "abc" fails
    numeric coercion and the series of the line and of the bar chart is
    empty; yet [drawPieChart] groups the unfiltered [data], and draws a
    slice and a label for the category "a" of that row. *)
Theorem pie_groups_unfiltered_rows :
  let s := selected [abcRow] pie in
  isNaN (get abcRow "v") = true /\
  filteredData s = [] /\
  renderEffect s (Some []) =
    [RemoveAll;
     Append (PieGroup [(VString "a", Num (D3.ofZ 0), "#1f77b4")]
                      [VString "a"])].
Proof. repeat split; evaluated. Qed.

(** C2 (the code departs from the claim).  A line chart of [catRows] is on
    display and a file with other rows is loaded.  The data is replaced and
    both fields are emptied, so the effect returns before its
    [selectAll('*').remove()]: the two axes, the path and the three circles
    of the old chart are still in the chart area. *)
Theorem old_chart_survives_new_file :
  let w1 := steps initialWorld chartShown in
  let w2 := step w1 (FileChange (Some (complete otherRows))) in
  data (state w2) = otherRows /\
  xField (state w2) = "" /\ yField (state w2) = "" /\
  geometry w2 = geometry w1 /\
  List.length (geometry w2) = 6%nat /\
  In (Circle (rowA "a" 1)) (geometry w2).
Proof.
  repeat split; try evaluated.
  vm_compute. do 3 right. left. same.
Qed.

(** Without batching the old marks are removed, but the chart area is not
    left empty either: the effect that follows [setData] still sees the old
    field names and draws the axes of a chart of the new rows, which stay
    when the fields are emptied.  The final state is the same. *)
Lemma unbatched_new_file_leaves_axes :
  let w1 := steps initialWorld chartShown in
  let w2 := completeUnbatched otherRows w1 in
  state w2 = state (step w1 (FileChange (Some (complete otherRows)))) /\
  geometry w2 =
    [AxisBottom (scaleLinear (None, None));
     AxisLeft (Num (D3.ofZ 0), Num (D3.ofZ 0));
     LinePath []].
Proof. split; evaluated. Qed.

(** C3, as stated, fails: with the bar chart chosen, loading a file does
    not bring [chartType] back to [line]. *)
Lemma chartType_survives_new_file :
  let w := steps initialWorld (chartShown ++ [ChartTypeChange bar]) in
  let s' := state (step w (FileChange (Some (complete otherRows)))) in
  ~ (chartType s' = line /\ xField s' = "" /\ yField s' = "").
Proof. intros w s' (E & _). vm_compute in E. discriminate. Qed.


(** C8, as stated, fails: the only row has "abc" for [v], so the filtered
    series is empty, and choosing the fields draws the two axes and an
    empty path into the chart area. *)
Lemma empty_series_chart_not_empty :
  let w := step (steps initialWorld abcLoaded) (YFieldChange "v") in
  filteredData (state w) = [] /\
  geometry w =
    [AxisBottom (scaleLinear (None, None));
     AxisLeft (Num (D3.ofZ 0), Num (D3.ofZ 0));
     LinePath []] /\
  geometry w <> [].
Proof. repeat split; try evaluated. vm_compute. discriminate. Qed.

(** The scale of the specification's example: for the values 0, 5 and 10
    the domain is [[0, 10]]. *)
Lemma yScale_zero_five_ten :
  yValues (selected fiveTenRows line) =
    [Num (D3.ofZ 0); Num (D3.ofZ 5); Num (D3.ofZ 10)] /\
  yScale (selected fiveTenRows line) = (Num (D3.ofZ 0), Num (D3.ofZ 10)).
Proof. split; evaluated. Qed.

(** Some values of [tickIncrement] and [nice]: steps 0.1, 10 and 5;
    [[0, 0.123457]] becomes [[0, 0.13]] and [[0, 3.3]] becomes
    [[0, 3.5]]. *)
Lemma tick_and_nice_examples :
  D3.tickIncrement (D3.ofZ 0) (D3.ofZ 1) = Some (D3.ofZ (-10)) /\
  D3.tickIncrement (D3.ofZ 0) (D3.ofZ 100) = Some (D3.ofZ 10) /\
  D3.tickIncrement (D3.ofZ (-33)) (D3.ofZ 0) = Some (D3.ofZ 5) /\
  D3.tickIncrement (D3.ofZ 0) (D3.ofZ 0) = None /\
  D3.nice (Num (D3.ofZ 0), Num (Q2Qc (123457 # 1000000))) =
    (Num (D3.ofZ 0), Num (Q2Qc (13 # 100))) /\
  D3.nice (Num (D3.ofZ 0), Num (Q2Qc (33 # 10))) =
    (Num (D3.ofZ 0), Num (Q2Qc (35 # 10))).
Proof. repeat split; evaluated. Qed.

(** What the rationals leave out.  In doubles, for the maximum
    0.0009000000000000001 (the double [0.0001 * 9]) the tick step is
    [-10000]; [stop * step] rounds to exactly -9, so that
    [floor(stop * step) / step] is 0.0009, the double just below the
    maximum: [nice] writes back an end that the greatest value exceeds.
    This is why no theorem on [yScale] bounds the values by the niced
    end. *)
Lemma nice_rounds_below_in_doubles :
  let stop := 0x1.d7dbf487fcb93p-11%float in
  let step := (-10000)%float in
  (stop * step = -9)%float /\
  (-9 / step = 0x1.d7dbf487fcb92p-11)%float /\
  (-9 / step <? stop)%float = true.
Proof. repeat split. Qed.

(** *** Instances of the theorems that have hypotheses *)

Lemma rendering_needs_data_and_fields_witness :
  let w := steps initialWorld
             [FileChange (Some (complete catRows)); XFieldChange "cat"] in
  draws (effectOps (YFieldChange "v") w) /\
  data (state (step w (YFieldChange "v"))) <> [] /\
  xField (state (step w (YFieldChange "v"))) <> "" /\
  yField (state (step w (YFieldChange "v"))) <> "".
Proof.
  assert (draws (effectOps (YFieldChange "v")
                   (steps initialWorld
                      [FileChange (Some (complete catRows));
                       XFieldChange "cat"]))) as Hd.
  { exists (LinePath catRows). vm_compute. do 3 right. left. reflexivity. }
  split; [exact Hd|].
  exact (rendering_needs_data_and_fields _ _ Hd).
Defined.


Lemma empty_series_draws_axes_only_witness :
  let s := selected [abcRow] line in
  filteredData s = [] /\
  drawLineChart s (Some []) =
    [Append (AxisBottom (scaleLinear (None, None)));
     Append (AxisLeft (Num (Q2Qc 0), Num (Q2Qc 0)));
     Append (LinePath [])] /\
  drawBarChart s (Some []) =
    [Append (AxisBottom (scaleBand []));
     Append (AxisLeft (Num (Q2Qc 0), Num (Q2Qc 0)))].
Proof.
  split; [reflexivity|].
  apply (empty_series_draws_axes_only (selected [abcRow] line) []).
  reflexivity.
Defined.

Lemma pie_colors_cycle_witness :
  let s := selected elevenRows pie in
  (10 < List.length (grouped s))%nat /\
  exists paths texts,
    drawPieChart s (Some []) = [Append (PieGroup paths texts)] /\
    exists k1 v1 k2 v2 c,
      k1 <> k2 /\ In c D3.schemeCategory10 /\
      In (k1, v1, c) paths /\ In (k2, v2, c) paths.
Proof.
  assert (10 < List.length (grouped (selected elevenRows pie)))%nat as Hl.
  { vm_compute. apply le_n. }
  split; [exact Hl|].
  destruct (pie_colors_cycle (selected elevenRows pie) [])
    as (_ & _ & paths & texts & E & _ & _ & _ & _ & Hcol).
  exists paths, texts. split; [exact E | exact (Hcol Hl)].
Defined.

(** *** Instances of the further theorems *)

Lemma reachable_chartShown : reachable (steps initialWorld chartShown).
Proof.
  apply reachable_steps; [apply reachable_initial|].
  cbn. repeat split; try discriminate; auto.
Qed.

Lemma ready_selected_catRows c : ready (selected catRows c).
Proof. repeat split; discriminate. Qed.

Lemma effect_redraws_from_scratch_witness :
  let s := selected catRows line in
  ready s /\
  run (renderEffect s (Some [Rect abcRow])) (Some [Rect abcRow])
  = Some (drawn s).
Proof.
  split; [apply ready_selected_catRows|].
  exact (effect_redraws_from_scratch (selected catRows line) [Rect abcRow]
           (ready_selected_catRows line)).
Defined.

Lemma display_follows_state_witness :
  let w := steps initialWorld chartShown in
  reachable w /\ ready (state w) /\ geometry w = drawn (state w).
Proof.
  assert (ready (state (steps initialWorld chartShown))) as Hr
    by (repeat split; discriminate).
  split; [exact reachable_chartShown|]. split; [exact Hr|].
  exact (display_follows_state _ reachable_chartShown Hr).
Defined.

Lemma incomplete_selection_keeps_chart_witness :
  let w := steps initialWorld chartShown in
  consistent w /\ columns (state w) <> [] /\
  columns (handle (XFieldChange "") (state w)) <> [] /\
  ~ ready (handle (XFieldChange "") (state w)) /\
  chartRef (step w (XFieldChange "")) = chartRef w.
Proof.
  assert (consistent (steps initialWorld chartShown)) as Hc
    by (repeat split; intro E; vm_compute in E; discriminate).
  assert (columns (state (steps initialWorld chartShown)) <> []) as Hcol
    by discriminate.
  assert (~ ready (handle (XFieldChange "")
                     (state (steps initialWorld chartShown)))) as Hn
    by (intros (_ & Hx & _); now apply Hx).
  split; [exact Hc|]. split; [exact Hcol|]. split; [exact Hcol|].
  split; [exact Hn|].
  exact (incomplete_selection_keeps_chart _ (XFieldChange "") Hc Hcol Hcol Hn).
Defined.

Lemma unchanged_dependencies_no_redraw_witness :
  let w := steps initialWorld chartShown in
  reachable w /\
  depsChanged (ModalChange true) (state w)
    (handle (ModalChange true) (state w)) = false /\
  effectOps (ModalChange true) w = [] /\
  chartRef (step w (ModalChange true)) = chartRef w.
Proof.
  split; [exact reachable_chartShown|]. split; [reflexivity|].
  exact (unchanged_dependencies_no_redraw _ (ModalChange true)
           reachable_chartShown eq_refl).
Defined.

Lemma parse_error_changes_nothing_witness :
  let w := steps initialWorld chartShown in
  reachable w /\ step w (FileChange (Some error)) = w.
Proof.
  split; [exact reachable_chartShown|].
  exact (parse_error_changes_nothing _ reachable_chartShown).
Defined.

Lemma drawn_fields_are_columns_witness :
  let w := steps initialWorld
             [FileChange (Some (complete catRows)); XFieldChange "cat"] in
  let e := YFieldChange "v" in
  reachable w /\ offered (state w) e /\ draws (effectOps e w) /\
  exists d0 rest,
    data (state (step w e)) = d0 :: rest /\
    In (xField (state (step w e))) (Object_keys d0) /\
    In (yField (state (step w e))) (Object_keys d0).
Proof.
  assert (reachable (steps initialWorld
            [FileChange (Some (complete catRows)); XFieldChange "cat"]))
    as Hr.
  { apply reachable_steps; [apply reachable_initial|].
    cbn. repeat split; try discriminate; auto. }
  assert (offered (state (steps initialWorld
            [FileChange (Some (complete catRows)); XFieldChange "cat"]))
            (YFieldChange "v")) as Ho.
  { cbn. split; [discriminate | auto]. }
  assert (draws (effectOps (YFieldChange "v")
                   (steps initialWorld
                      [FileChange (Some (complete catRows));
                       XFieldChange "cat"]))) as Hd.
  { exists (LinePath catRows). vm_compute. do 3 right. left. reflexivity. }
  split; [exact Hr|]. split; [exact Ho|]. split; [exact Hd|].
  exact (drawn_fields_are_columns _ _ Hr Ho Hd).
Defined.

Lemma plotted_cells_witness :
  let s := selected [boolRow] line in
  In boolRow (data s) /\ not_null (get boolRow (xField s)) = true /\
  In boolRow (filteredData s) /\
  ToNumber (get boolRow (yField s)) = Num (Q2Qc 1).
Proof.
  split; [now left|]. split; [reflexivity|].
  exact (proj1 (plotted_cells (selected [boolRow] line) boolRow
                  (or_introl eq_refl) eq_refl) true eq_refl).
Defined.

Lemma one_mark_per_filtered_row_witness :
  let s := selected catRows line in
  ready s /\ circlesOf (drawn s) = filteredData s /\ rectsOf (drawn s) = [].
Proof.
  split; [apply ready_selected_catRows|].
  pose proof (one_mark_per_filtered_row (selected catRows line)
                (ready_selected_catRows line)) as (Hc & Hrect & _).
  split; [exact Hc | exact Hrect].
Defined.

Lemma linear_xScale_covers_witness :
  let s := selected numericRows line in
  isXNumeric s = true /\
  In (nth 0 numericRows []) (filteredData s) /\
  exists lo hi,
    In (Append (AxisBottom (scaleLinear (Some (Num lo), Some (Num hi)))))
       (drawLineChart s (Some [])) /\
    forall d q, In d (filteredData s) ->
      get d (xField s) = VNumber (Num q) -> (lo <= q /\ q <= hi)%Qc.
Proof.
  split; [reflexivity|]. split; [now left|].
  exact (linear_xScale_covers (selected numericRows line) []
           (nth 0 numericRows []) (D3.ofZ 2)
           eq_refl (or_introl eq_refl) eq_refl).
Defined.

Lemma tables_rows_witness :
  let s := mkState catRows ["cat"; "v"] "cat" "v" line true in
  view s = Some catPanel /\
  List.length (tbody (previewTable catPanel)) = 3%nat /\
  modal catPanel = Some (table (columns s) (data s)).
Proof.
  split; [reflexivity|].
  pose proof (tables_rows (mkState catRows ["cat"; "v"] "cat" "v" line true)
                catPanel eq_refl) as (Hl & _ & _ & Hm & _).
  split; [exact Hl | exact (proj1 (Hm eq_refl))].
Defined.

Lemma selects_show_an_option_witness :
  let w := steps initialWorld (chartShown ++ [ModalChange true]) in
  reachable w /\ view (state w) = Some catPanel /\
  In (fst (xSelect catPanel)) (snd (xSelect catPanel)) /\
  In (fst (ySelect catPanel)) (snd (ySelect catPanel)).
Proof.
  assert (reachable (steps initialWorld (chartShown ++ [ModalChange true])))
    as Hr.
  { apply reachable_steps; [apply reachable_initial|].
    cbn. repeat split; try discriminate; auto. }
  split; [exact Hr|]. split; [reflexivity|].
  exact (proj2 (selects_show_an_option _ catPanel Hr eq_refl)).
Defined.

Lemma geometry_needs_data_witness :
  let w := steps initialWorld chartShown in
  reachable w /\ geometry w <> [] /\ data (state w) <> [].
Proof.
  assert (geometry (steps initialWorld chartShown) <> []) as Hg
    by (vm_compute; discriminate).
  split; [exact reachable_chartShown|]. split; [exact Hg|].
  exact (geometry_needs_data _ reachable_chartShown Hg).
Defined.
